(** * generate_proto: from a Unity Catalog table schema to a proto2 file

    A shallow embedding of [scripts/generate_proto.py]: the type mapper
    ([parse_array_type], [parse_map_type], [get_proto_field_info]) and the
    emitter ([generate_proto_file]), with the properties of the specification
    stated and proved about them.

    Modelling choices.
    - A Python [str] is a [string]; the model is exact on ASCII text, which is
      what type names are made of.  [upper] changes the letters a-z only and
      [is_space] is [str.isspace] on the ASCII range; where a statement
      would not hold of Python outside ASCII, it carries the hypothesis
      [is_ascii].
    - [re.match] is a backtracking matcher over the fragment of regular
      expressions the two patterns use: anchors, literal characters and the
      greedy group [(.+)], where [.] matches anything but a newline and [$]
      matches at the end or just before a final newline.
    - The dict [type_mapping] and the file system are finite maps.
    - [raise ValueError(msg)] is the [Raise] constructor of a result type;
      the message is kept, since the specification speaks about it.
    - The file system holds the content of each file and tells what the
      operating system makes of a write: it goes through and replaces the
      content, or [open] fails and nothing changes, or the write fails after
      [open] has emptied the file; the last two raise [OSError].
    - The table that [extract_columns] receives is a JSON value, with
      integers for numbers; a failed lookup or a wrong shape is a [KeyError]
      or a [TypeError] of an outcome type, as Python raises them. *)

From Stdlib Require Import Ascii String DecimalString.
From stdpp Require Import base gmap strings list.

(** ** Text *)

Module Str.

(** [str.upper] on one character. *)
Definition upper_char (c : ascii) : ascii :=
  let n := N_of_ascii c in
  if ((97 <=? n) && (n <=? 122))%N then ascii_of_N (n - 32) else c.

(** [s.upper()] *)
Fixpoint upper (s : string) : string :=
  match s with
  | EmptyString => EmptyString
  | String c s' => String (upper_char c) (upper s')
  end.

(** [c.isspace()]: tab, line feed, vertical tab, form feed, carriage
    return, the four separators 0x1c-0x1f and the space. *)
Definition is_space (c : ascii) : bool :=
  let n := N_of_ascii c in
  (((9 <=? n) && (n <=? 13)) || ((28 <=? n) && (n <=? 32)))%N.

Fixpoint lstrip (s : string) : string :=
  match s with
  | EmptyString => EmptyString
  | String c s' => if is_space c then lstrip s' else s
  end.

Fixpoint rstrip (s : string) : string :=
  match s with
  | EmptyString => EmptyString
  | String c s' =>
      match rstrip s' with
      | EmptyString => if is_space c then EmptyString else String c EmptyString
      | r => String c r
      end
  end.

(** [s.strip()] *)
Definition strip (s : string) : string := rstrip (lstrip s).

(** [s.startswith(p)] *)
Fixpoint startswith (p s : string) : bool :=
  match p, s with
  | EmptyString, _ => true
  | String a p', String b s' => if Ascii.eqb a b then startswith p' s' else false
  | String _ _, EmptyString => false
  end.

(** [sep.join(l)] *)
Fixpoint join (sep : string) (l : list string) : string :=
  match l with
  | [] => EmptyString
  | [x] => x
  | x :: rest => x +:+ sep +:+ join sep rest
  end.

(** [c in s] *)
Fixpoint has (c : ascii) (s : string) : bool :=
  match s with
  | EmptyString => false
  | String a s' => Ascii.eqb c a || has c s'
  end.

(** [str(n)] for a non-negative integer. *)
Definition of_nat (n : nat) : string := NilZero.string_of_uint (Nat.to_uint n).

End Str.

(** ** Regular expressions, as [re.match] runs them *)

Module Re.

Definition newline : ascii := "010"%char.

Inductive item : Type :=
| Bol                (* ^ *)
| Eol                (* $ *)
| Lit (c : ascii)    (* a literal character *)
| Group.             (* (.+) *)

Fixpoint lits (s : string) : list item :=
  match s with
  | EmptyString => []
  | String c s' => Lit c :: lits s'
  end.

(** The greedy [.+]: of the non-empty newline-free prefixes of [s], the
    longest one after which the continuation [k] succeeds. *)
Fixpoint dot_plus {A} (k : string → string → option A) (s : string) : option A :=
  match s with
  | EmptyString => None
  | String c s' =>
      if Ascii.eqb c newline then None
      else match dot_plus (λ g rest, k (String c g) rest) s' with
           | Some r => Some r
           | None => k (String c EmptyString) s'
           end
  end.

Definition at_end (s : string) : bool :=
  match s with
  | EmptyString => true
  | String c EmptyString => Ascii.eqb c newline
  | _ => false
  end.

(** [start] tells whether the matcher still stands at position 0;
    [groups] are the groups captured so far. *)
Fixpoint run (items : list item) (start : bool) (s : string)
    (groups : list string) : option (list string) :=
  match items with
  | [] => Some groups
  | Bol :: r => if start then run r start s groups else None
  | Eol :: r => if at_end s then run r start s groups else None
  | Lit c :: r =>
      match s with
      | String c' s' => if Ascii.eqb c c' then run r false s' groups else None
      | EmptyString => None
      end
  | Group :: r => dot_plus (λ g rest, run r false rest (groups ++ [g])) s
  end.

(** [re.match(pattern, s)], giving the groups of the match. *)
Definition rmatch (pattern : list item) (s : string) : option (list string) :=
  run pattern true s [].

End Re.

(** ** Exceptions *)

(** [OSError] is what [open] and the write raise ([IOError] is its other
    name); its text comes from the operating system and is not modelled. *)
Inductive exn : Type :=
| ValueError (msg : string)
| OSError.

Inductive result (A : Type) : Type :=
| Ok (a : A)
| Raise (e : exn).
Arguments Ok {A} a.
Arguments Raise {A} e.

(** ** The type mapper *)

(** r"^ARRAY<(.+)>$" *)
Definition array_pattern : list Re.item :=
  Re.Bol :: Re.lits "ARRAY<" ++ Re.Group :: Re.lits ">" ++ [Re.Eol].

(** r"^MAP<(.+),(.+)>$" *)
Definition map_pattern : list Re.item :=
  Re.Bol :: Re.lits "MAP<" ++ Re.Group :: Re.lits "," ++ Re.Group :: Re.lits ">" ++ [Re.Eol].

Definition parse_array_type (column_type : string) : option string :=
  match Re.rmatch array_pattern (Str.upper column_type) with
  | Some [g1] => Some (Str.strip g1)
  | _ => None
  end.

Definition parse_map_type (column_type : string) : option (string * string) :=
  match Re.rmatch map_pattern (Str.upper column_type) with
  | Some [g1; g2] =>
      let key_type := Str.strip g1 in
      let value_type := Str.strip g2 in
      Some (key_type, value_type)
  | _ => None
  end.

Definition type_items : list (string * string) :=
  [ ("SMALLINT", "int32");
    ("INT", "int32");
    ("STRING", "string");
    ("FLOAT", "float");
    ("BIGINT", "int64");
    ("LONG", "int64");
    ("SHORT", "int32");
    ("DOUBLE", "double");
    ("BOOLEAN", "bool");
    ("BINARY", "bytes");
    ("DATE", "int32");
    ("TIMESTAMP", "int64") ].

Definition type_mapping : gmap string string := list_to_map type_items.

(** "optional" if nullable else "required" *)
Definition scalar_modifier (nullable : bool) : string :=
  if nullable then "optional" else "required".

Definition get_proto_field_info (column_type : string) (nullable : bool)
    : result (string * string) :=
  match type_mapping !! Str.upper column_type with
  | Some proto_type => Ok (scalar_modifier nullable, proto_type)
  | None =>
  if Str.startswith "VARCHAR" (Str.upper column_type)
  then Ok (scalar_modifier nullable, "string")
  else
  match parse_array_type column_type with
  | Some element_type =>
      match type_mapping !! Str.upper element_type with
      | None => Raise (ValueError ("Unsupported array element type: " +:+ element_type))
      | Some element_proto_type => Ok ("repeated", element_proto_type)
      end
  | None =>
  match parse_map_type column_type with
  | Some (key_type, value_type) =>
      match type_mapping !! Str.upper key_type with
      | None => Raise (ValueError ("Unsupported map key type: " +:+ key_type))
      | Some key_proto_type =>
          match type_mapping !! Str.upper value_type with
          | None => Raise (ValueError ("Unsupported map value type: " +:+ value_type))
          | Some value_proto_type =>
              Ok ("", "map<" +:+ key_proto_type +:+ ", " +:+ value_proto_type +:+ ">")
          end
      end
  | None => Raise (ValueError ("Unsupported column type: " +:+ column_type))
  end
  end
  end.

(** ** The emitter *)

Record Column : Type := mkColumn {
  name : string;
  type_text : string;
  nullable : bool
}.

Definition nl : string := String Re.newline EmptyString.

Definition dquote : string := String "034"%char EmptyString.

(** 'syntax = "proto2";' *)
Definition syntax_line : string := "syntax = " +:+ dquote +:+ "proto2" +:+ dquote +:+ ";".

(** f"message {message_name} {{" *)
Definition message_line (message_name : string) : string :=
  "message " +:+ message_name +:+ " {".

(** The two f-strings of the loop body. *)
Definition field_line (field_modifier proto_type field_name : string) (idx : nat) : string :=
  if String.eqb field_modifier ""
  then "    " +:+ proto_type +:+ " " +:+ field_name +:+ " = " +:+ Str.of_nat idx +:+ ";"
  else "    " +:+ field_modifier +:+ " " +:+ proto_type +:+ " " +:+ field_name
         +:+ " = " +:+ Str.of_nat idx +:+ ";".

(** for idx, col in enumerate(columns, start=idx): ... proto_content.append(...) *)
Fixpoint add_fields (idx : nat) (columns : list Column) (proto_content : list string)
    : result (list string) :=
  match columns with
  | [] => Ok proto_content
  | col :: rest =>
      match get_proto_field_info (type_text col) (nullable col) with
      | Raise e => Raise e
      | Ok (field_modifier, proto_type) =>
          let field_name := name col in
          add_fields (S idx) rest
            (proto_content ++ [field_line field_modifier proto_type field_name idx])
      end
  end.

(** The list [proto_content] as it stands when the file is opened. *)
Definition proto_lines (message_name : string) (columns : list Column)
    : result (list string) :=
  match add_fields 1 columns [syntax_line; ""; message_line message_name] with
  | Raise e => Raise e
  | Ok proto_content => Ok (proto_content ++ ["}"; ""])
  end.

(** What the operating system makes of opening a path for writing, writing
    a text and closing: all of it goes through; or [open] fails and the file
    is not touched; or [open] succeeds, which empties the file, and the write
    or the close fails, leaving [remains] in the file. *)
Inductive write_outcome : Type :=
| Written
| OpenFails
| WriteFails (remains : string).

(** The file system: the content of the file at each path, and what
    becomes of an attempt to write a text at a path. *)
Record FileSystem : Type := mkFS {
  files : gmap string string;
  write_outcome_of : string → string → write_outcome
}.

Definition set_file (path content : string) (fs : FileSystem) : FileSystem :=
  mkFS (<[path := content]> (files fs)) (write_outcome_of fs).

(** with open(path, "w") as f: f.write(text) *)
Definition write_file (path text : string) (fs : FileSystem)
    : result unit * FileSystem :=
  match write_outcome_of fs path text with
  | Written => (Ok (), set_file path text fs)
  | OpenFails => (Raise OSError, fs)
  | WriteFails remains => (Raise OSError, set_file path remains fs)
  end.

Definition generate_proto_file (message_name : string) (columns : list Column)
    (output_path : string) (fs : FileSystem)
    : result unit * FileSystem :=
  match proto_lines message_name columns with
  | Raise e => (Raise e, fs)
  | Ok proto_content => write_file output_path (Str.join nl proto_content) fs
  end.

(** ** The specification's words, for comparison with the code *)

Module Spec.

(** The scalar table as the specification documents it. *)
Definition scalar_table : list (string * string) :=
  [ ("SMALLINT", "int32"); ("SHORT", "int32"); ("INT", "int32");
    ("STRING", "string"); ("FLOAT", "float");
    ("BIGINT", "int64"); ("LONG", "int64");
    ("DOUBLE", "double"); ("BOOLEAN", "bool"); ("BINARY", "bytes");
    ("DATE", "int32"); ("TIMESTAMP", "int64") ].

Definition REQUIRED : string := "required".
Definition OPTIONAL : string := "optional".
Definition REPEATED : string := "repeated".
Definition NONE : string := "".

(** Splitting on the first comma: the text before it and the text after it. *)
Fixpoint split_first_comma (content : string) : option (string * string) :=
  match content with
  | EmptyString => None
  | String c rest =>
      if Ascii.eqb c ","%char then Some (EmptyString, rest)
      else match split_first_comma rest with
           | Some (k, v) => Some (String c k, v)
           | None => None
           end
  end.

(** "<modifier> <target_type> <name> = <tag>;", the modifier token left out
    when it is NONE; indented as in the output artifact. *)
Definition render (modifier target_type field_name : string) (tag : nat) : string :=
  "    " +:+ (if decide (modifier = NONE) then "" else modifier +:+ " ")
    +:+ target_type +:+ " " +:+ field_name +:+ " = " +:+ Str.of_nat tag +:+ ";".

(** The header line of the output artifact: syntax = "proto2"; with the
    two double quotes given by their character code 34. *)
Definition header : string :=
  "syntax = " +:+ String "034"%char ("proto2" +:+ String "034"%char ";").

(** The line feed, character code 10. *)
Definition LF : string := String "010"%char EmptyString.

(** One line per field, in order, the field at 0-based position [i]
    carrying the tag [i + 1]; every line ends with a line feed. *)
Definition field_block (fields : list (string * (string * string))) : string :=
  foldr String.append EmptyString
    (imap (λ i f, render f.2.1 f.2.2 f.1 (i + 1) +:+ LF) fields).

(** Header line, blank line, the message block, trailing newline. *)
Definition emit (message_name : string) (fields : list (string * (string * string)))
    : string :=
  header +:+ LF +:+ LF +:+
  "message " +:+ message_name +:+ " {" +:+ LF +:+
  field_block fields +:+
  "}" +:+ LF.

End Spec.

(** A column maps to a field descriptor. *)
Definition maps_to (col : Column) (d : string * string) : Prop :=
  get_proto_field_info (type_text col) (nullable col) = Ok d.

(** A column fails to map, with the exception [e]. *)
Definition fails_with (col : Column) (e : exn) : Prop :=
  get_proto_field_info (type_text col) (nullable col) = Raise e.

(** The text of a group as the parsers hand it over: taken from the
    upper-cased input, then stripped. *)
Definition normalized (s : string) : string := Str.strip (Str.upper s).

Definition row_columns : list Column :=
  [ mkColumn "id" "INT" false;
    mkColumn "tags" "ARRAY<STRING>" true;
    mkColumn "meta" "MAP<STRING,STRING>" false ].

(** ** The fetched schema and [extract_columns] *)

Module Py.

(** A value as [response.json()] builds it.  Numbers are the integers. *)
#[warnings="-register-all"]
Inductive json : Type :=
| JNull
| JBool (b : bool)
| JNum (n : Z)
| JStr (s : string)
| JList (l : list json)
| JDict (d : gmap string json).

(** [KeyError(arg)]: a failed dict lookup raises it with the key as [arg].
    The text of a [TypeError] is not modelled. *)
Inductive error : Type :=
| KeyError (arg : string)
| TypeError.

Inductive outcome (A : Type) : Type :=
| Return (a : A)
| Throw (e : error).
Arguments Return {A} a.
Arguments Throw {A} e.

Definition bind {A B} (m : outcome A) (f : A → outcome B) : outcome B :=
  match m with
  | Return a => f a
  | Throw e => Throw e
  end.

Definition hex_digit (n : N) : ascii :=
  ascii_of_N (if (n <? 10)%N then 48 + n else 87 + n).

(** One character of [repr(s)], [q] being the quote that encloses it. *)
Definition repr_char (q c : ascii) : string :=
  let n := N_of_ascii c in
  if Ascii.eqb c q || Ascii.eqb c "\"%char then String "\"%char (String c EmptyString)
  else if (n =? 9)%N then "\t"
  else if (n =? 10)%N then "\n"
  else if (n =? 13)%N then "\r"
  else if (n <? 32)%N || (126 <? n)%N
       then "\x" +:+ String (hex_digit (n / 16)) (String (hex_digit (n mod 16)) EmptyString)
  else String c EmptyString.

Fixpoint repr_body (q : ascii) (s : string) : string :=
  match s with
  | EmptyString => EmptyString
  | String c s' => repr_char q c +:+ repr_body q s'
  end.

(** [repr(s)] of a text: in single quotes, unless it holds a single quote
    and no double quote.  As the rest of the text model, it is exact on
    ASCII. *)
Definition repr (s : string) : string :=
  let q := if Str.has "'"%char s && negb (Str.has "034"%char s)
           then "034"%char else "'"%char in
  String q (repr_body q s +:+ String q EmptyString).

(** [str(e)] *)
Definition str_error (arg : string) : string := repr arg.

(** [v[key]] *)
Definition subscript (v : json) (key : string) : outcome json :=
  match v with
  | JDict d =>
      match d !! key with
      | Some x => Return x
      | None => Throw (KeyError key)
      end
  | _ => Throw TypeError
  end.

(** What [for col in v] goes through: the items of a list, the keys of a
    dict, the characters of a text.  The keys come in the order of the map,
    not in the order of insertion; the caller fails on the first key
    whichever it is. *)
Definition iter (v : json) : outcome (list json) :=
  match v with
  | JList l => Return l
  | JDict d => Return (JStr <$> (map_to_list d).*1)
  | JStr s => Return ((λ c, JStr (String c EmptyString)) <$> list_ascii_of_string s)
  | _ => Throw TypeError
  end.

(** [[f(x) for x in l]], left to right, stopping at the first exception. *)
Fixpoint comprehension {A B} (f : A → outcome B) (l : list A) : outcome (list B) :=
  match l with
  | [] => Return []
  | x :: rest =>
      bind (f x) (λ y, bind (comprehension f rest) (λ ys, Return (y :: ys)))
  end.

End Py.

(** {"name": col["name"], "type_text": col["type_text"], "nullable": col["nullable"]} *)
Definition column_dict (col : Py.json) : Py.outcome (gmap string Py.json) :=
  Py.bind (Py.subscript col "name") (λ n,
  Py.bind (Py.subscript col "type_text") (λ t,
  Py.bind (Py.subscript col "nullable") (λ nu,
  Py.Return (<["name" := n]> (<["type_text" := t]> (<["nullable" := nu]> ∅)))))).

Definition extract_columns (table_info : gmap string Py.json)
    : Py.outcome (list (gmap string Py.json)) :=
  let body :=
    Py.bind (Py.subscript (Py.JDict table_info) "columns") (λ columns,
    Py.bind (Py.iter columns) (λ cols,
    Py.comprehension column_dict cols)) in
  match body with
  | Py.Throw (Py.KeyError e) =>
      Py.Throw (Py.KeyError
        ("Failed to extract column information: missing key " +:+ Py.str_error e))
  | r => r
  end.

(** ** The message name, as [main] chooses it *)

(** [s.split(sep)] for a separator of one character. *)
Fixpoint split (sep : ascii) (s : string) : list string :=
  match s with
  | EmptyString => [EmptyString]
  | String c s' =>
      if Ascii.eqb c sep then EmptyString :: split sep s'
      else match split sep s' with
           | x :: rest => String c x :: rest
           | [] => [String c EmptyString]
           end
  end.

(** args.proto_msg if args.proto_msg else args.table.split(".")[-1]
    The index -1 is in range, [split] giving at least one part. *)
Definition message_name_of (proto_msg : option string) (table : string) : string :=
  let fallback := default EmptyString (last (split "."%char table)) in
  match proto_msg with
  | Some m => if String.eqb m "" then fallback else m
  | None => fallback
  end.

(** ** Vocabulary of the further properties *)

(** The text is ASCII: every character has a code below 128.  On such
    text [Str.upper], [Str.strip] and [Py.repr] are what Python computes. *)
Definition is_ascii_char (c : ascii) : bool := (N_of_ascii c <? 128)%N.

Fixpoint is_ascii (s : string) : bool :=
  match s with
  | EmptyString => true
  | String c s' => is_ascii_char c && is_ascii s'
  end.

(** No comma of [s] has a character after it: a comma can only be the last
    character. *)
Fixpoint no_inner_comma (s : string) : bool :=
  match s with
  | EmptyString => true
  | String c EmptyString => true
  | String c rest => negb (Ascii.eqb c ","%char) && no_inner_comma rest
  end.

(** The target types of the scalar table. *)
Definition proto_scalars : list string :=
  ["int32"; "string"; "float"; "int64"; "double"; "bool"; "bytes"].

(** The keys a column must have. *)
Definition column_keys : list string := ["name"; "type_text"; "nullable"].

(** The column [col] is a dict with the three keys. *)
Definition complete_column (col : Py.json) : Prop :=
  ∃ d, col = Py.JDict d ∧ Forall (λ k, is_Some (d !! k)) column_keys.

(** The row built from the dict [d] holds its three values and nothing
    else. *)
Definition row_of_dict (d row : gmap string Py.json) : Prop :=
  dom row = list_to_set column_keys ∧
  ∀ k, k ∈ column_keys → row !! k = d !! k.

(** The first key of [column_keys] that the dict [d] lacks. *)
Definition first_missing (d : gmap string Py.json) : option string :=
  list_find (λ k, d !! k = None) column_keys ≫= λ ik, Some ik.2.

(** * Properties *)

(** ** Text *)

Section text.
Implicit Types (s t r : string) (c : ascii).

Lemma sapp_cons c s t : String c s +:+ t = String c (s +:+ t).
Proof. reflexivity. Qed.

Lemma sapp_nil_l s : "" +:+ s = s.
Proof. reflexivity. Qed.

Lemma sapp_nil_r s : s +:+ "" = s.
Proof. induction s as [|c s IH]; [done|]. by rewrite sapp_cons, IH. Qed.

Lemma sapp_assoc s t r : (s +:+ t) +:+ r = s +:+ (t +:+ r).
Proof. induction s as [|c s IH]; [done|]. by rewrite !sapp_cons, IH. Qed.

Lemma sapp_eq_nil s t : s +:+ t = "" → s = "" ∧ t = "".
Proof. destruct s; [done|]. rewrite sapp_cons. discriminate. Qed.

Lemma upper_char_idem c : Str.upper_char (Str.upper_char c) = Str.upper_char c.
Proof. by destruct c as [[] [] [] [] [] [] [] []]. Qed.

Lemma upper_char_newline c :
  Ascii.eqb (Str.upper_char c) Re.newline = Ascii.eqb c Re.newline.
Proof. by destruct c as [[] [] [] [] [] [] [] []]. Qed.

Lemma upper_idem s : Str.upper (Str.upper s) = Str.upper s.
Proof.
  induction s as [|c s IH]; simpl; [done|].
  by rewrite upper_char_idem, IH.
Qed.

Lemma upper_app s t : Str.upper (s +:+ t) = Str.upper s +:+ Str.upper t.
Proof.
  induction s as [|c s IH]; [done|].
  rewrite sapp_cons. simpl. by rewrite IH.
Qed.

Lemma upper_eq_nil s : Str.upper s = "" ↔ s = "".
Proof. by destruct s. Qed.

Lemma has_cons c a s : Str.has c (String a s) = Ascii.eqb c a || Str.has c s.
Proof. reflexivity. Qed.

Lemma has_app c s t : Str.has c (s +:+ t) = Str.has c s || Str.has c t.
Proof.
  induction s as [|a s IH]; [done|].
  rewrite sapp_cons. simpl. rewrite IH. by destruct (Ascii.eqb c a).
Qed.

Lemma has_newline_upper s :
  Str.has Re.newline (Str.upper s) = Str.has Re.newline s.
Proof.
  induction s as [|a s IH]; simpl; [done|].
  rewrite IH. f_equal. by destruct a as [[] [] [] [] [] [] [] []].
Qed.

Lemma has_comma_upper s : Str.has "," (Str.upper s) = Str.has "," s.
Proof.
  induction s as [|a s IH]; simpl; [done|].
  rewrite IH. f_equal. by destruct a as [[] [] [] [] [] [] [] []].
Qed.

Lemma startswith_app p s : Str.startswith p s = true → ∃ r, s = p +:+ r.
Proof.
  revert s. induction p as [|a p IH]; intros s H.
  - by exists s.
  - destruct s as [|b s]; simpl in H; [done|].
    destruct (Ascii.eqb_spec a b) as [->|]; [|done].
    destruct (IH _ H) as [r ->]. by exists r.
Qed.

End text.

(** ** The greedy group *)

Section greedy.
Context {A : Type}.
Implicit Types (k : string → string → option A) (a s t r : string).

Lemma dot_plus_cons k c s :
  Re.dot_plus k (String c s) =
    if Ascii.eqb c Re.newline then None
    else match Re.dot_plus (λ g rest, k (String c g) rest) s with
         | Some r => Some r
         | None => k (String c "") s
         end.
Proof. reflexivity. Qed.

(** When no split of [s] satisfies the continuation, the group fails. *)
Lemma dot_plus_none k s :
  (∀ t r, t ≠ "" → s = t +:+ r → k t r = None) →
  Re.dot_plus k s = None.
Proof.
  revert k. induction s as [|c s IH]; intros k Hk; [done|].
  rewrite dot_plus_cons.
  destruct (Ascii.eqb c Re.newline); [done|].
  rewrite IH.
  - by apply Hk.
  - intros t r Ht ->. by apply Hk.
Qed.

(** The group takes [a] when the continuation succeeds after it and fails
    after every longer prefix. *)
Lemma dot_plus_longest k a s x :
  a ≠ "" → Str.has Re.newline a = false →
  (∀ t r, t ≠ "" → s = t +:+ r → k (a +:+ t) r = None) →
  k a s = Some x →
  Re.dot_plus k (a +:+ s) = Some x.
Proof.
  revert k. induction a as [|c a IH]; intros k Hne Hnl Hlong Hk; [done|].
  rewrite sapp_cons, dot_plus_cons.
  rewrite has_cons, Ascii.eqb_sym in Hnl.
  destruct (Ascii.eqb c Re.newline); [done|]. rewrite orb_false_l in Hnl.
  destruct a as [|c' a].
  - rewrite sapp_nil_l, dot_plus_none; [done|].
    intros t r Ht ->. by apply (Hlong t r).
  - by rewrite (IH (λ g rest, k (String c g) rest)).
Qed.

End greedy.

(** ** The two patterns *)

Section patterns.
Implicit Types (K V T x : string).

Lemma rmatch_array T :
  T ≠ "" → Str.has Re.newline T = false →
  Re.rmatch array_pattern ("ARRAY<" +:+ T +:+ ">") = Some [T].
Proof.
  intros Hne Hnl.
  change (Re.rmatch array_pattern ("ARRAY<" +:+ T +:+ ">"))
    with (Re.dot_plus (λ g rest, Re.run (Re.lits ">" ++ [Re.Eol]) false rest ([] ++ [g]))
            (T +:+ ">")).
  apply dot_plus_longest; [done..| |done].
  intros [|c t] r Ht Hr; [done|].
  injection Hr as <- Hr. symmetry in Hr.
  apply sapp_eq_nil in Hr as [-> ->]. done.
Qed.

Lemma rmatch_array_map x : Re.rmatch array_pattern ("MAP<" +:+ x) = None.
Proof. reflexivity. Qed.

Lemma rmatch_map_array x : Re.rmatch map_pattern ("ARRAY<" +:+ x) = None.
Proof. reflexivity. Qed.

(** The first group of the map pattern ends at the last comma: whatever
    commas [K] holds, the value is the comma-free text [V]. *)
Lemma rmatch_map K V :
  K ≠ "" → V ≠ "" →
  Str.has Re.newline K = false → Str.has Re.newline V = false →
  Str.has "," V = false →
  Re.rmatch map_pattern ("MAP<" +:+ K +:+ "," +:+ V +:+ ">") = Some [K; V].
Proof.
  intros HK HV HnK HnV Hc.
  change (Re.rmatch map_pattern ("MAP<" +:+ K +:+ "," +:+ V +:+ ">"))
    with (Re.dot_plus
            (λ g rest, Re.run (Re.lits "," ++ Re.Group :: Re.lits ">" ++ [Re.Eol])
                         false rest ([] ++ [g]))
            (K +:+ String "," (V +:+ ">"))).
  apply dot_plus_longest; [done..| |].
  - intros [|c t] r Ht Hr; [done|].
    injection Hr as <- Hr.
    destruct r as [|c r]; [done|].
    destruct (Ascii.eqb_spec "," c) as [<-|Hne].
    + apply (f_equal (Str.has ",")) in Hr.
      rewrite !has_app, Hc in Hr. simpl in Hr.
      by rewrite orb_true_r in Hr.
    + cbn [Re.run Re.lits app]. by rewrite (proj2 (Ascii.eqb_neq _ _) Hne).
  - change (Re.dot_plus (λ g rest, Re.run (Re.lits ">" ++ [Re.Eol]) false rest ([K] ++ [g]))
              (V +:+ ">") = Some [K; V]).
    apply dot_plus_longest; [done..| |done].
    intros [|c t] r Ht Hr; [done|].
    injection Hr as <- Hr. symmetry in Hr.
    apply sapp_eq_nil in Hr as [-> ->]. done.
Qed.

End patterns.

(** ** The scalar table *)

Lemma type_mapping_Some s v : type_mapping !! s = Some v → (s, v) ∈ type_items.
Proof. apply elem_of_list_to_map_2. Qed.

(** Splits a membership in [type_items] into its twelve cases. *)
Ltac scalar_cases H :=
  unfold type_items in H;
  repeat (apply elem_of_cons in H as [H|H]; [injection H as ? ?|]);
  try (by apply elem_of_nil in H).

Lemma type_mapping_array x : type_mapping !! ("ARRAY<" +:+ x) = None.
Proof.
  destruct (type_mapping !! _) as [v|] eqn:H; [|done].
  apply type_mapping_Some in H. scalar_cases H; discriminate.
Qed.

Lemma type_mapping_map x : type_mapping !! ("MAP<" +:+ x) = None.
Proof.
  destruct (type_mapping !! _) as [v|] eqn:H; [|done].
  apply type_mapping_Some in H. scalar_cases H; discriminate.
Qed.

Lemma type_mapping_varchar x : type_mapping !! ("VARCHAR" +:+ x) = None.
Proof.
  destruct (type_mapping !! _) as [v|] eqn:H; [|done].
  apply type_mapping_Some in H. scalar_cases H; discriminate.
Qed.

(** ** The type mapper *)

Section mapper.
Implicit Types (t T K V : string) (n : bool).

(** Only the upper-cased input decides the outcome, the message for an
    unmatched input apart, which quotes the input as it came. *)
Lemma get_proto_field_info_upper t t' n :
  Str.upper t = Str.upper t' →
  (∀ r, get_proto_field_info t n = Ok r → get_proto_field_info t' n = Ok r) ∧
  (∀ m, get_proto_field_info t n = Raise (ValueError m) →
     get_proto_field_info t' n = Raise (ValueError m) ∨
     (m = "Unsupported column type: " +:+ t ∧
      get_proto_field_info t' n
        = Raise (ValueError ("Unsupported column type: " +:+ t')))).
Proof.
  intros H. unfold get_proto_field_info, parse_array_type, parse_map_type.
  rewrite H. split; intros; repeat case_match; naive_solver.
Qed.

Lemma upper_array T :
  Str.upper ("ARRAY<" +:+ T +:+ ">") = "ARRAY<" +:+ Str.upper T +:+ ">".
Proof. by rewrite !upper_app. Qed.

Lemma upper_map K V :
  Str.upper ("MAP<" +:+ K +:+ "," +:+ V +:+ ">")
    = "MAP<" +:+ Str.upper K +:+ "," +:+ Str.upper V +:+ ">".
Proof. by rewrite !upper_app. Qed.

Lemma parse_array_type_array T :
  T ≠ "" → Str.has Re.newline T = false →
  parse_array_type ("ARRAY<" +:+ T +:+ ">") = Some (normalized T).
Proof.
  intros Hne Hnl. unfold parse_array_type.
  rewrite upper_array, rmatch_array; [done| |].
  - by rewrite upper_eq_nil.
  - by rewrite has_newline_upper.
Qed.

Lemma parse_map_type_map K V :
  K ≠ "" → V ≠ "" →
  Str.has Re.newline K = false → Str.has Re.newline V = false →
  Str.has "," V = false →
  parse_map_type ("MAP<" +:+ K +:+ "," +:+ V +:+ ">")
    = Some (normalized K, normalized V).
Proof.
  intros HK HV HnK HnV Hc. unfold parse_map_type.
  rewrite upper_map, rmatch_map; rewrite ?upper_eq_nil, ?has_newline_upper,
    ?has_comma_upper; done.
Qed.

Lemma parse_array_type_map x : parse_array_type ("MAP<" +:+ x) = None.
Proof. reflexivity. Qed.

End mapper.

(** ** The emitter *)

Section emitter.
Implicit Types (columns pre rest : list Column) (col : Column)
  (descrs : list (string * string)) (acc lines : list string) (idx : nat).

(** A line of the file, for the column [cd.1] mapped to [cd.2]. *)
Local Abbreviation line_of idx :=
  (λ i (cd : Column * (string * string)),
     field_line cd.2.1 cd.2.2 (name cd.1) (idx + i)).

Lemma field_line_render m ty nm idx :
  field_line m ty nm idx = Spec.render m ty nm idx.
Proof.
  unfold field_line, Spec.render, Spec.NONE.
  destruct (String.eqb_spec m "") as [->|Hne].
  - by rewrite decide_True.
  - rewrite decide_False by done. by rewrite (sapp_assoc m).
Qed.

Lemma add_fields_ok columns descrs idx acc :
  Forall2 maps_to columns descrs →
  add_fields idx columns acc = Ok (acc ++ imap (line_of idx) (zip columns descrs)).
Proof.
  intros H. revert idx acc.
  induction H as [|col d columns descrs Hd _ IH]; intros idx acc; simpl.
  - by rewrite (right_id_L [] (++)).
  - unfold maps_to in Hd. rewrite Hd. destruct d as [m ty].
    rewrite IH, <-(assoc_L (++)). simpl. rewrite Nat.add_0_r.
    do 3 f_equal. apply imap_ext. intros i x _. simpl.
    f_equal. lia.
Qed.

Lemma add_fields_Ok_inv columns idx acc lines :
  add_fields idx columns acc = Ok lines → ∃ descrs, Forall2 maps_to columns descrs.
Proof.
  revert idx acc. induction columns as [|col columns IH]; intros idx acc H.
  - exists []. constructor.
  - simpl in H.
    destruct (get_proto_field_info _ _) as [[m ty]|e] eqn:Hd; [|done].
    destruct (IH _ _ H) as [descrs Hds].
    exists ((m, ty) :: descrs). by constructor.
Qed.

Lemma add_fields_raise pre col rest descrs e idx acc :
  Forall2 maps_to pre descrs → fails_with col e →
  add_fields idx (pre ++ col :: rest) acc = Raise e.
Proof.
  intros H He. revert idx acc.
  induction H as [|c d pre descrs Hd _ IH]; intros idx acc; simpl.
  - unfold fails_with in He. by rewrite He.
  - unfold maps_to in Hd. rewrite Hd. destruct d. apply IH.
Qed.

(** The columns before the first one that fails all map. *)
Lemma first_failure columns :
  Exists (λ col, ∃ e, fails_with col e) columns →
  ∃ pre col rest descrs e,
    columns = pre ++ col :: rest ∧ Forall2 maps_to pre descrs ∧ fails_with col e.
Proof.
  induction columns as [|c columns IH]; intros H; [by inversion H|].
  destruct (get_proto_field_info (type_text c) (nullable c)) as [d|e] eqn:Hc.
  - inversion H as [? ? [e He]|? ? Hex]; subst.
    { unfold fails_with in He. congruence. }
    destruct (IH Hex) as (pre & col & rest & descrs & e & -> & Hpre & He).
    exists (c :: pre), col, rest, (d :: descrs), e.
    split_and!; [done| |done]. by constructor.
  - exists [], c, columns, [], e. split_and!; [done|constructor|done].
Qed.

Lemma proto_lines_ok message_name columns descrs :
  Forall2 maps_to columns descrs →
  proto_lines message_name columns
    = Ok ([syntax_line; ""; message_line message_name]
            ++ imap (line_of 1) (zip columns descrs) ++ ["}"; ""]).
Proof.
  intros H. unfold proto_lines. rewrite (add_fields_ok _ _ _ _ H).
  by rewrite <-(assoc_L (++)).
Qed.

(** The line of the column at position [i] is the one at position [3 + i],
    and it carries the tag [i + 1]. *)
Lemma proto_lines_lookup message_name columns lines i col :
  proto_lines message_name columns = Ok lines →
  columns !! i = Some col →
  ∃ d, maps_to col d ∧
       lines !! (3 + i) = Some (field_line d.1 d.2 (name col) (i + 1)).
Proof.
  intros H Hi. unfold proto_lines in H.
  destruct (add_fields _ _ _) as [pc|e] eqn:Hadd; [|done].
  destruct (add_fields_Ok_inv _ _ _ _ Hadd) as [descrs Hds].
  rewrite (add_fields_ok _ _ _ _ Hds) in Hadd.
  injection Hadd as <-. injection H as <-.
  destruct (Forall2_lookup_l _ _ _ _ _ Hds Hi) as (d & Hd & Hcd).
  exists d. split; [done|].
  rewrite !lookup_cons_ne_0 by (simpl; lia).
  change (pred (pred (pred (3 + i)))) with i.
  rewrite lookup_app_l.
  2:{ rewrite length_imap, length_zip_with.
      apply lookup_lt_Some in Hi, Hd. lia. }
  rewrite list_lookup_imap.
  rewrite (proj2 (lookup_zip_with_Some _ _ _ _ _) (ex_intro _ col (ex_intro _ d
    (conj eq_refl (conj Hi Hd))))).
  simpl. do 2 f_equal. lia.
Qed.


Lemma join_cons sep x y lines :
  Str.join sep (x :: y :: lines) = x +:+ sep +:+ Str.join sep (y :: lines).
Proof. reflexivity. Qed.

(** Joining with newlines ends every line but those of the tail. *)
Lemma join_app_nl lines y tail :
  Str.join nl (lines ++ y :: tail)
    = foldr String.append "" ((λ l, l +:+ nl) <$> lines) +:+ Str.join nl (y :: tail).
Proof.
  induction lines as [|x lines IH]; [done|].
  destruct lines as [|x' lines].
  - simpl app. rewrite join_cons. simpl. by rewrite sapp_nil_r, sapp_assoc.
  - change (Str.join nl ((x :: x' :: lines) ++ y :: tail))
      with (x +:+ nl +:+ Str.join nl ((x' :: lines) ++ y :: tail)).
    rewrite IH, !fmap_cons. cbn [foldr].
    by rewrite !sapp_assoc.
Qed.

End emitter.

(** * The claims *)

(** C1. Every key of the documented scalar table maps, when not nullable, to
    the modifier REQUIRED and the documented target type, and when nullable
    to OPTIONAL and the same target type. *)
Theorem scalar_keys_map_as_documented :
  Forall (λ kv : string * string,
            get_proto_field_info kv.1 false = Ok (Spec.REQUIRED, kv.2) ∧
            get_proto_field_info kv.1 true = Ok (Spec.OPTIONAL, kv.2))
    Spec.scalar_table.
Proof. repeat constructor; vm_compute; reflexivity. Qed.

(** C2 does not hold of the code: the first group of the map pattern is
    greedy, so the split is on the last comma.  For map<string,decimal(10,2)>
    the first comma of the upper-cased content gives the key STRING and the
    value DECIMAL(10,2); the parser gives the key STRING,DECIMAL(10 and the
    value 2). *)
Theorem map_split_breaks_decimal :
  parse_map_type "map<string,decimal(10,2)>" = Some ("STRING,DECIMAL(10", "2)") ∧
  Spec.split_first_comma (Str.upper "string,decimal(10,2)")
    = Some ("STRING", "DECIMAL(10,2)").
Proof. split; vm_compute; reflexivity. Qed.

(** C3 does not hold of the code: an array of a variable-length string is
    rejected, although the same type text maps to string as a column type. *)
Theorem array_of_varchar_rejected (n : bool) :
  get_proto_field_info "ARRAY<VARCHAR(10)>" n
    = Raise (ValueError "Unsupported array element type: VARCHAR(10)") ∧
  get_proto_field_info "VARCHAR(10)" n = Ok (scalar_modifier n, "string").
Proof. destruct n; split; vm_compute; reflexivity. Qed.

(** C4. An array of a type that resolves in the scalar table maps to REPEATED
    with the target type of the element, whatever [nullable] is. *)
Theorem array_of_scalar_repeated (T v : string) (n : bool) :
  type_mapping !! Str.upper T = Some v →
  get_proto_field_info ("ARRAY<" +:+ T +:+ ">") n = Ok (Spec.REPEATED, v).
Proof.
  intros H. apply type_mapping_Some in H.
  pose proof (upper_array T) as HU.
  scalar_cases H; subst v;
    match goal with
    | Hk : Str.upper T = ?k |- _ =>
        rewrite Hk in HU;
        apply (get_proto_field_info_upper ("ARRAY<" +:+ k +:+ ">") _ n);
          [by rewrite HU | destruct n; vm_compute; reflexivity]
    end.
Qed.

Lemma array_of_scalar_repeated_witness :
  get_proto_field_info "ARRAY<INT>" true = Ok (Spec.REPEATED, "int32") ∧
  get_proto_field_info "ARRAY<INT>" false = Ok (Spec.REPEATED, "int32").
Proof.
  split.
  - apply (array_of_scalar_repeated "INT" "int32" true). reflexivity.
  - apply (array_of_scalar_repeated "INT" "int32" false). reflexivity.
Defined.

(** C5. A map whose key and value types both resolve in the scalar table maps
    to the modifier NONE and the target type map<k, v>, with a space after the
    comma, whatever [nullable] is; and the line the emitter writes for such a
    column starts with the target type, with no modifier token before it. *)
Theorem map_of_scalars (K V a b : string) (n : bool) :
  type_mapping !! Str.upper K = Some a →
  type_mapping !! Str.upper V = Some b →
  let column_type := "MAP<" +:+ K +:+ "," +:+ V +:+ ">" in
  let target_type := "map<" +:+ a +:+ ", " +:+ b +:+ ">" in
  get_proto_field_info column_type n = Ok (Spec.NONE, target_type) ∧
  ∀ message_name columns lines i col,
    proto_lines message_name columns = Ok lines →
    columns !! i = Some col →
    type_text col = column_type → nullable col = n →
    lines !! (3 + i)
      = Some ("    " +:+ target_type +:+ " " +:+ name col +:+ " = "
                +:+ Str.of_nat (i + 1) +:+ ";").
Proof.
  intros HK HV column_type target_type.
  assert (get_proto_field_info column_type n = Ok (Spec.NONE, target_type)) as Hmap.
  { subst column_type target_type.
    apply type_mapping_Some in HK, HV.
    pose proof (upper_map K V) as HU.
    scalar_cases HK; subst a; scalar_cases HV; subst b;
      match goal with
      | Hk : Str.upper K = ?k, Hv : Str.upper V = ?v |- _ =>
          rewrite Hk, Hv in HU;
          apply (get_proto_field_info_upper ("MAP<" +:+ k +:+ "," +:+ v +:+ ">") _ n);
            [by rewrite HU | destruct n; vm_compute; reflexivity]
      end. }
  split; [done|].
  intros message_name columns lines i col Hlines Hi Hty Hn.
  destruct (proto_lines_lookup _ _ _ _ _ Hlines Hi) as (d & Hd & ->).
  unfold maps_to in Hd. rewrite Hty, Hn, Hmap in Hd. by injection Hd as <-.
Qed.

Lemma map_of_scalars_witness :
  get_proto_field_info "MAP<STRING,INT>" false = Ok (Spec.NONE, "map<string, int32>") ∧
  proto_lines "Row" [mkColumn "meta" "MAP<STRING,INT>" false]
    = Ok [syntax_line; ""; "message Row {"; "    map<string, int32> meta = 1;"; "}"; ""].
Proof.
  destruct (map_of_scalars "STRING" "INT" "string" "int32" false eq_refl eq_refl)
    as [Hmap Hline].
  split; [exact Hmap|reflexivity].
Defined.

(** The text handed to the write, when every column maps. *)
Lemma proto_lines_text message_name columns descrs :
  Forall2 maps_to columns descrs →
  ∃ proto_content,
    proto_lines message_name columns = Ok proto_content ∧
    Str.join nl proto_content
      = Spec.emit message_name (zip (name <$> columns) descrs).
Proof.
  intros H. eexists. split; [by apply proto_lines_ok|].
  rewrite (assoc_L (++)), join_app_nl, fmap_app, foldr_app.
  unfold Spec.emit, Spec.field_block, message_line.
  replace ((λ l, l +:+ nl) <$> imap _ (zip columns descrs))
    with (imap (λ i (f : string * (string * string)),
                  Spec.render f.2.1 f.2.2 f.1 (i + 1) +:+ Spec.LF)
            (zip (name <$> columns) descrs)).
  - cbn [fmap list_fmap foldr]. set (block := foldr _ _ _).
    change (Str.join nl ["}"; ""]) with ("}" +:+ Spec.LF).
    generalize ("}" +:+ Spec.LF). intros tail.
    change syntax_line with Spec.header. change nl with Spec.LF.
    by rewrite !sapp_assoc.
  - apply list_eq. intros i.
    rewrite list_lookup_fmap, !list_lookup_imap, !lookup_zip_with, list_lookup_fmap.
    destruct (columns !! i) as [col|]; [|done].
    destruct (descrs !! i) as [d|]; [|done]. simpl.
    by rewrite field_line_render, (Nat.add_comm i 1).
Qed.

Lemma generate_proto_file_writes message_name columns descrs output_path fs :
  Forall2 maps_to columns descrs →
  generate_proto_file message_name columns output_path fs
    = write_file output_path
        (Spec.emit message_name (zip (name <$> columns) descrs)) fs.
Proof.
  intros H. unfold generate_proto_file.
  destruct (proto_lines_text message_name _ _ H) as (pc & -> & ->). done.
Qed.

(** C6. For every message name and every list of columns that all map, the
    text the generation writes is the header line, a blank line, and the
    message block with one line per column in input order, the column at
    position i (from 0) carrying the tag i + 1 and no modifier token when the
    modifier is NONE, then the closing brace and a final newline; with no
    column the block is empty.  When the operating system completes the
    write, the file at the output path holds exactly this text; when it does
    not, the generation raises its error. *)
Theorem emitted_text (message_name : string) (columns : list Column)
    (descrs : list (string * string)) (output_path : string) (fs : FileSystem) :
  Forall2 maps_to columns descrs →
  let text := Spec.emit message_name (zip (name <$> columns) descrs) in
  match write_outcome_of fs output_path text with
  | Written =>
      generate_proto_file message_name columns output_path fs
        = (Ok (), set_file output_path text fs)
  | OpenFails =>
      generate_proto_file message_name columns output_path fs = (Raise OSError, fs)
  | WriteFails remains =>
      generate_proto_file message_name columns output_path fs
        = (Raise OSError, set_file output_path remains fs)
  end.
Proof.
  intros H text. subst text.
  rewrite (generate_proto_file_writes _ _ _ output_path fs H).
  unfold write_file. by destruct (write_outcome_of fs _ _).
Qed.

Lemma emitted_text_witness :
  generate_proto_file "Row" row_columns "out.proto" (mkFS ∅ (λ _ _, Written))
    = (Ok (),
       mkFS {[ "out.proto" :=
                 Spec.header +:+ Spec.LF +:+ Spec.LF +:+
                 "message Row {" +:+ Spec.LF +:+
                 "    required int32 id = 1;" +:+ Spec.LF +:+
                 "    repeated string tags = 2;" +:+ Spec.LF +:+
                 "    map<string, string> meta = 3;" +:+ Spec.LF +:+
                 "}" +:+ Spec.LF ]}
            (λ _ _, Written)) ∧
  generate_proto_file "Empty" [] "out.proto" (mkFS ∅ (λ _ _, Written))
    = (Ok (),
       mkFS {[ "out.proto" :=
                 Spec.header +:+ Spec.LF +:+ Spec.LF +:+
                 "message Empty {" +:+ Spec.LF +:+ "}" +:+ Spec.LF ]}
            (λ _ _, Written)) ∧
  generate_proto_file "Row" row_columns "" (mkFS ∅ (λ _ _, OpenFails))
    = (Raise OSError, mkFS ∅ (λ _ _, OpenFails)).
Proof.
  split_and!.
  - apply (emitted_text "Row" row_columns
             [("required", "int32"); ("repeated", "string"); ("", "map<string, string>")]
             "out.proto" (mkFS ∅ (λ _ _, Written))).
    repeat constructor.
  - apply (emitted_text "Empty" [] [] "out.proto" (mkFS ∅ (λ _ _, Written))).
    constructor.
  - apply (emitted_text "Row" row_columns
             [("required", "int32"); ("repeated", "string"); ("", "map<string, string>")]
             "" (mkFS ∅ (λ _ _, OpenFails))).
    repeat constructor.
Defined.

(** C7 does not hold of the code.  For MAP<STRING,DECIMAL(10,2)> the key
    STRING resolves in the scalar table and the value DECIMAL(10,2) does not,
    so the error should name the value; the greedy split takes the last
    comma, and the error names STRING,DECIMAL(10 as an unsupported key. *)
Theorem map_value_blamed_on_key (n : bool) :
  get_proto_field_info "MAP<STRING,DECIMAL(10,2)>" n
    = Raise (ValueError "Unsupported map key type: STRING,DECIMAL(10") ∧
  type_mapping !! "STRING" = Some "string" ∧
  type_mapping !! "DECIMAL(10,2)" = None.
Proof. destruct n; split_and!; vm_compute; reflexivity. Qed.

(** C8. If some column fails to map, the generation raises the error of the
    first such column and leaves the file system as it was: nothing is
    written, not even the lines of the columns before the failing one. *)
Theorem no_partial_output (message_name : string) (columns : list Column)
    (output_path : string) (fs : FileSystem) :
  Exists (λ col, ∃ e, fails_with col e) columns →
  ∃ pre col rest e,
    columns = pre ++ col :: rest ∧
    Forall (λ c, ∃ d, maps_to c d) pre ∧
    fails_with col e ∧
    generate_proto_file message_name columns output_path fs = (Raise e, fs).
Proof.
  intros H.
  destruct (first_failure _ H) as (pre & col & rest & descrs & e & -> & Hpre & He).
  exists pre, col, rest, e. split_and!; [done| |done|].
  - clear -Hpre. induction Hpre; constructor; eauto.
  - unfold generate_proto_file, proto_lines.
    by rewrite (add_fields_raise _ _ _ _ _ _ _ Hpre He).
Qed.

Lemma no_partial_output_witness :
  let columns :=
    [mkColumn "id" "INT" false; mkColumn "price" "DECIMAL(10,2)" true;
     mkColumn "nested" "ARRAY<ARRAY<INT>>" true] in
  let fs := mkFS {[ "out.proto" := "old content" ]} (λ _ _, Written) in
  ∃ pre col rest e,
    columns = pre ++ col :: rest ∧
    Forall (λ c, ∃ d, maps_to c d) pre ∧
    fails_with col e ∧
    generate_proto_file "Row" columns "out.proto" fs = (Raise e, fs).
Proof.
  intros columns fs. apply (no_partial_output "Row" columns "out.proto" fs).
  apply Exists_cons_tl, Exists_cons_hd.
  exists (ValueError "Unsupported column type: DECIMAL(10,2)"). reflexivity.
Defined.

(** C9, as stated, fails: the mapper does not fail the same way on an input
    and on its upper-cased form, since the error for an input of no form
    quotes the input as it came. *)
Lemma upper_changes_the_error :
  ¬ (∀ t n, get_proto_field_info t n = get_proto_field_info (Str.upper t) n).
Proof. intros H. specialize (H "foo" false). vm_compute in H. done. Qed.

(** C9, amended. The mapper succeeds on an input exactly when it succeeds on
    the upper-cased input, with the same result; when it fails, it fails on
    the upper-cased input too, with the same error, except that for an input
    of no form each error names its own raw input.  The emitter writes the
    message name and the field names as they were given. *)
Theorem keywords_case_insensitive (t : string) (n : bool) :
  (∀ r, get_proto_field_info t n = Ok r ↔
        get_proto_field_info (Str.upper t) n = Ok r) ∧
  (∀ m, get_proto_field_info t n = Raise (ValueError m) →
        get_proto_field_info (Str.upper t) n = Raise (ValueError m) ∨
        (m = "Unsupported column type: " +:+ t ∧
         get_proto_field_info (Str.upper t) n
           = Raise (ValueError ("Unsupported column type: " +:+ Str.upper t)))) ∧
  (∀ message_name columns lines,
     proto_lines message_name columns = Ok lines →
     lines !! 2 = Some ("message " +:+ message_name +:+ " {") ∧
     ∀ i col, columns !! i = Some col →
       ∃ d, maps_to col d ∧
            lines !! (3 + i) = Some (Spec.render d.1 d.2 (name col) (i + 1))).
Proof.
  assert (Str.upper t = Str.upper (Str.upper t)) as Hu by by rewrite upper_idem.
  split_and!.
  - intros r. split.
    + apply get_proto_field_info_upper, Hu.
    + apply get_proto_field_info_upper. by rewrite <-Hu.
  - apply get_proto_field_info_upper, Hu.
  - intros message_name columns lines Hlines. split.
    + unfold proto_lines in Hlines.
      destruct (add_fields _ _ _) as [pc|e] eqn:Hadd; [|done].
      destruct (add_fields_Ok_inv _ _ _ _ Hadd) as [descrs Hds].
      rewrite (add_fields_ok _ _ _ _ Hds) in Hadd.
      injection Hadd as <-. by injection Hlines as <-.
    + intros i col Hi.
      destruct (proto_lines_lookup _ _ _ _ _ Hlines Hi) as (d & Hd & Hl).
      exists d. by rewrite <-field_line_render.
Qed.

Lemma keywords_case_insensitive_witness :
  get_proto_field_info "ARRAY<STRING>" true = Ok ("repeated", "string") ∧
  get_proto_field_info "STRUCT<A:INT>" true
    = Raise (ValueError "Unsupported column type: STRUCT<A:INT>").
Proof.
  destruct (keywords_case_insensitive "array<string>" true) as (Hok & _ & _).
  destruct (keywords_case_insensitive "struct<a:int>" true) as (_ & Hraise & _).
  split.
  - apply (proj1 (Hok ("repeated", "string"))). reflexivity.
  - destruct (Hraise "Unsupported column type: struct<a:int>" eq_refl)
      as [Hsame|[_ Hraw]]; [discriminate Hsame|exact Hraw].
Defined.

(** C10. Every type text whose upper-cased form starts with VARCHAR, whatever
    follows, is not a key of the scalar table and maps to string, with the
    modifier OPTIONAL when nullable and REQUIRED otherwise. *)
Theorem varchar_prefix_maps_to_string (t : string) (n : bool) :
  Str.startswith "VARCHAR" (Str.upper t) = true →
  type_mapping !! Str.upper t = None ∧
  get_proto_field_info t n
    = Ok (if n then Spec.OPTIONAL else Spec.REQUIRED, "string").
Proof.
  intros H. destruct (startswith_app _ _ H) as [r Hr].
  assert (type_mapping !! Str.upper t = None) as Hnone.
  { rewrite Hr. apply type_mapping_varchar. }
  split; [done|].
  unfold get_proto_field_info. by rewrite Hnone, H.
Qed.

Lemma varchar_prefix_maps_to_string_witness :
  get_proto_field_info "VARCHARXYZ" true = Ok ("optional", "string") ∧
  get_proto_field_info "varchar_garbage" false = Ok ("required", "string") ∧
  get_proto_field_info "VARCHAR(10)" false = Ok ("required", "string").
Proof.
  split_and!.
  - apply (varchar_prefix_maps_to_string "VARCHARXYZ" true). reflexivity.
  - apply (varchar_prefix_maps_to_string "varchar_garbage" false). reflexivity.
  - apply (varchar_prefix_maps_to_string "VARCHAR(10)" false). reflexivity.
Defined.

(** * Further properties of the code *)

(** ** More on text *)

Section more_text.
Implicit Types (s t r a b : string) (c : ascii).

Lemma is_space_upper_char c : Str.is_space (Str.upper_char c) = Str.is_space c.
Proof. by destruct c as [[] [] [] [] [] [] [] []]. Qed.

Lemma upper_char_space c : Str.is_space c = true → Str.upper_char c = c.
Proof. by destruct c as [[] [] [] [] [] [] [] []]. Qed.

Lemma lstrip_upper s : Str.lstrip (Str.upper s) = Str.upper (Str.lstrip s).
Proof.
  induction s as [|c s IH]; [done|].
  cbn [Str.upper Str.lstrip]. rewrite is_space_upper_char.
  by destruct (Str.is_space c).
Qed.

Lemma rstrip_cons c s :
  Str.rstrip (String c s) =
    match Str.rstrip s with
    | EmptyString => if Str.is_space c then EmptyString else String c EmptyString
    | r => String c r
    end.
Proof. reflexivity. Qed.

Lemma rstrip_upper s : Str.rstrip (Str.upper s) = Str.upper (Str.rstrip s).
Proof.
  induction s as [|c s IH]; [done|].
  cbn [Str.upper]. rewrite !rstrip_cons, IH, is_space_upper_char.
  destruct (Str.rstrip s); [by destruct (Str.is_space c)|done].
Qed.

Lemma strip_upper s : Str.strip (Str.upper s) = Str.upper (Str.strip s).
Proof. unfold Str.strip. by rewrite lstrip_upper, rstrip_upper. Qed.

Lemma rstrip_idem s : Str.rstrip (Str.rstrip s) = Str.rstrip s.
Proof.
  induction s as [|c s IH]; [done|].
  rewrite rstrip_cons. destruct (Str.rstrip s) as [|c' r] eqn:Hr.
  - destruct (Str.is_space c) eqn:Hc; [done|]. by rewrite rstrip_cons, Hc.
  - by rewrite rstrip_cons, IH.
Qed.

(** What [lstrip] leaves does not start with white space, and [rstrip]
    keeps it so. *)
Lemma lstrip_rstrip_lstrip s :
  Str.lstrip (Str.rstrip (Str.lstrip s)) = Str.rstrip (Str.lstrip s).
Proof.
  induction s as [|c s IH]; [done|].
  cbn [Str.lstrip]. destruct (Str.is_space c) eqn:Hc; [done|].
  rewrite rstrip_cons.
  destruct (Str.rstrip s); rewrite ?Hc; cbn [Str.lstrip]; by rewrite Hc.
Qed.

Lemma strip_idem s : Str.strip (Str.strip s) = Str.strip s.
Proof. unfold Str.strip. by rewrite lstrip_rstrip_lstrip, rstrip_idem. Qed.

Lemma upper_app_fixed a b :
  Str.upper (a +:+ b) = a +:+ b → Str.upper a = a ∧ Str.upper b = b.
Proof.
  induction a as [|c a IH]; [done|].
  rewrite sapp_cons. cbn [Str.upper]. intros [= Hc H].
  destruct (IH H) as [-> ->]. by rewrite Hc.
Qed.

Lemma normalized_upper s : Str.upper (normalized s) = normalized s.
Proof. unfold normalized. by rewrite <-strip_upper, upper_idem. Qed.

Lemma has_false_app c s t :
  Str.has c (s +:+ t) = false ↔ Str.has c s = false ∧ Str.has c t = false.
Proof. rewrite has_app. apply orb_false_iff. Qed.

(** Where a character stands that the tail [b] does not hold. *)
Lemma app_eq_app_cons s b t c r :
  Str.has c b = false →
  s +:+ b = t +:+ String c r →
  ∃ s2, s = t +:+ String c s2 ∧ r = s2 +:+ b.
Proof.
  intros Hb. revert t. induction s as [|a s IH]; intros t H.
  - rewrite sapp_nil_l in H. subst b.
    rewrite has_app, has_cons, Ascii.eqb_refl, orb_true_r in Hb. done.
  - destruct t as [|a' t].
    + rewrite sapp_nil_l, sapp_cons in H. injection H as -> <-.
      by exists s.
    + rewrite !sapp_cons in H. injection H as -> H.
      destruct (IH _ H) as (s2 & -> & ->). by exists s2.
Qed.

End more_text.

(** ** What a match tells *)

Section inversion.
Context {A : Type}.
Implicit Types (k : string → string → option A) (s t r g : string).

Lemma dot_plus_None_inv k s :
  Re.dot_plus k s = None →
  ∀ t r, t ≠ "" → Str.has Re.newline t = false → s = t +:+ r → k t r = None.
Proof.
  revert k. induction s as [|c s IH]; intros k H t r Ht Hnl Hs.
  - symmetry in Hs. by apply sapp_eq_nil in Hs as [-> _].
  - destruct t as [|c' t]; [done|].
    rewrite sapp_cons in Hs. injection Hs as <- ->.
    rewrite dot_plus_cons in H.
    rewrite has_cons, Ascii.eqb_sym in Hnl.
    apply orb_false_iff in Hnl as [Hc Hnl]. rewrite Hc in H.
    destruct (Re.dot_plus _ (t +:+ r)) eqn:Hin; [done|].
    destruct t as [|c' t]; [done|].
    by apply (IH _ Hin (String c' t) r).
Qed.

(** The group took a non-empty newline-free prefix after which the rest of
    the pattern matched, and no longer such prefix would have done. *)
Lemma dot_plus_Some_inv k s x :
  Re.dot_plus k s = Some x →
  ∃ g rest,
    s = g +:+ rest ∧ g ≠ "" ∧ Str.has Re.newline g = false ∧ k g rest = Some x ∧
    ∀ t r, t ≠ "" → Str.has Re.newline t = false → rest = t +:+ r →
           k (g +:+ t) r = None.
Proof.
  revert k. induction s as [|c s IH]; intros k H; [done|].
  rewrite dot_plus_cons in H.
  destruct (Ascii.eqb c Re.newline) eqn:Hc; [done|].
  destruct (Re.dot_plus _ s) as [y|] eqn:Hin.
  - injection H as ->.
    destruct (IH _ Hin) as (g & rest & -> & Hg & Hnl & Hk & Hmax).
    exists (String c g), rest. split_and!; [done|done| |done|].
    + by rewrite has_cons, Ascii.eqb_sym, Hc.
    + intros t r Ht Htnl ->. by apply (Hmax t r).
  - exists (String c ""), s. split_and!; [done|done| |done|].
    + by rewrite has_cons, Ascii.eqb_sym, Hc.
    + intros t r Ht Htnl ->. by apply (dot_plus_None_inv _ _ Hin t r).
Qed.

End inversion.

Section pattern_inversion.
Implicit Types (u T K V : string) (gs groups : list string).

Lemma run_bol items u groups :
  Re.run (Re.Bol :: items) true u groups = Re.run items true u groups.
Proof. reflexivity. Qed.

Lemma run_group items start u groups :
  Re.run (Re.Group :: items) start u groups
    = Re.dot_plus (λ g rest, Re.run items false rest (groups ++ [g])) u.
Proof. reflexivity. Qed.

Lemma run_lit_inv c items start u groups x :
  Re.run (Re.Lit c :: items) start u groups = Some x →
  ∃ u', u = String c u' ∧ Re.run items false u' groups = Some x.
Proof.
  cbn [Re.run]. destruct u as [|c' u']; [done|].
  destruct (Ascii.eqb_spec c c') as [->|]; [|done]. by exists u'.
Qed.

Lemma run_close_inv u groups x :
  Re.run (Re.lits ">" ++ [Re.Eol]) false u groups = Some x →
  x = groups ∧ (u = ">" ∨ u = ">" +:+ nl).
Proof.
  intros H. apply run_lit_inv in H as (u' & -> & H).
  cbn [Re.run] in H. destruct u' as [|c [|c' u']]; cbn [Re.at_end] in H.
  - injection H as <-. auto.
  - destruct (Ascii.eqb c Re.newline) eqn:Hc; [|done].
    apply Ascii.eqb_eq in Hc. subst c. injection H as <-. auto.
  - done.
Qed.

Lemma run_close groups :
  Re.run (Re.lits ">" ++ [Re.Eol]) false ">" groups = Some groups ∧
  Re.run (Re.lits ">" ++ [Re.Eol]) false (">" +:+ nl) groups = Some groups.
Proof. done. Qed.

(** After the closing bracket nothing can follow but one newline, so no
    group reaches beyond the text before it. *)
Lemma close_no_longer (tail : string) groups (a t r : string) :
  tail = ">" ∨ tail = ">" +:+ nl →
  t ≠ "" → tail = t +:+ r →
  Re.run (Re.lits ">" ++ [Re.Eol]) false r (groups ++ [a +:+ t]) = None.
Proof.
  intros Htail Ht Hr.
  destruct (Re.run _ _ r _) as [x|] eqn:H; [|done].
  apply run_close_inv in H as [_ Hr'].
  destruct t as [|c t]; [done|].
  destruct Htail as [-> | ->], Hr' as [-> | ->];
    rewrite sapp_cons in Hr; injection Hr as _ Hr;
    destruct t as [|? [|? ?]]; done.
Qed.

Lemma rmatch_array_nl T :
  T ≠ "" → Str.has Re.newline T = false →
  Re.rmatch array_pattern ("ARRAY<" +:+ T +:+ ">" +:+ nl) = Some [T].
Proof.
  intros Hne Hnl.
  change (Re.rmatch array_pattern ("ARRAY<" +:+ T +:+ ">" +:+ nl))
    with (Re.dot_plus (λ g rest, Re.run (Re.lits ">" ++ [Re.Eol]) false rest ([] ++ [g]))
            (T +:+ ">" +:+ nl)).
  apply dot_plus_longest; [done..| |done].
  intros t r Ht Hr. apply (close_no_longer (">" +:+ nl) [] T t r); auto.
Qed.

Lemma rmatch_array_inv u gs :
  Re.rmatch array_pattern u = Some gs →
  ∃ T, gs = [T] ∧ T ≠ "" ∧ Str.has Re.newline T = false ∧
       (u = "ARRAY<" +:+ T +:+ ">" ∨ u = "ARRAY<" +:+ T +:+ ">" +:+ nl).
Proof.
  unfold Re.rmatch, array_pattern. cbn [Re.lits app]. rewrite run_bol. intros H.
  do 6 (apply run_lit_inv in H as (? & -> & H)).
  rewrite run_group in H.
  apply dot_plus_Some_inv in H as (T & rest & -> & HT & Hnl & H & _).
  apply run_close_inv in H as [-> Hrest].
  exists T. split_and!; [done..|].
  destruct Hrest as [-> | ->]; auto.
Qed.

End pattern_inversion.

Section map_pattern_inversion.
Implicit Types (u K V tail : string) (gs : list string).

Lemma no_inner_comma_cons c c' s :
  no_inner_comma (String c (String c' s))
    = negb (Ascii.eqb c ",") && no_inner_comma (String c' s).
Proof. reflexivity. Qed.

Lemma no_inner_comma_split V V1 V2 :
  no_inner_comma V = true → V = V1 +:+ String "," V2 → V2 = "".
Proof.
  revert V1. induction V as [|c V IH]; intros V1 H HV.
  - by destruct V1.
  - destruct V as [|c' V].
    + destruct V1 as [|? [|? ?]]; [|done..]. by injection HV as _ <-.
    + rewrite no_inner_comma_cons in H. apply andb_true_iff in H as [Hc H].
      destruct V1 as [|c1 V1].
      * rewrite sapp_nil_l in HV. injection HV as -> _. done.
      * rewrite sapp_cons in HV. injection HV as _ HV. by apply (IH V1).
Qed.

Lemma no_inner_comma_intro V :
  (∀ V1 c V2, V ≠ V1 +:+ String "," (String c V2)) → no_inner_comma V = true.
Proof.
  induction V as [|c V IH]; intros H; [done|].
  destruct V as [|c' V]; [done|].
  rewrite no_inner_comma_cons. apply andb_true_iff. split.
  - destruct (Ascii.eqb_spec c ",") as [->|]; [|done].
    by destruct (H "" c' V).
  - apply IH. intros V1 c2 V2 HV. apply (H (String c V1) c2 V2).
    by rewrite sapp_cons, HV.
Qed.

Lemma tail_no_comma tail :
  tail = ">" ∨ tail = ">" +:+ nl → Str.has "," tail = false.
Proof. by intros [-> | ->]. Qed.

(** The second group, once the first has been fixed. *)
Lemma second_group groups V tail :
  V ≠ "" → Str.has Re.newline V = false →
  tail = ">" ∨ tail = ">" +:+ nl →
  Re.dot_plus (λ g rest, Re.run (Re.lits ">" ++ [Re.Eol]) false rest (groups ++ [g]))
    (V +:+ tail) = Some (groups ++ [V]).
Proof.
  intros HV Hnl Htail. apply dot_plus_longest; [done..| |].
  - intros t r Ht Hr. by apply (close_no_longer tail groups V t r).
  - destruct (run_close (groups ++ [V])) as [H1 H2]. by destruct Htail as [-> | ->].
Qed.

Lemma rmatch_map_tail K V tail :
  K ≠ "" → V ≠ "" →
  Str.has Re.newline K = false → Str.has Re.newline V = false →
  no_inner_comma V = true →
  tail = ">" ∨ tail = ">" +:+ nl →
  Re.rmatch map_pattern ("MAP<" +:+ K +:+ "," +:+ V +:+ tail) = Some [K; V].
Proof.
  intros HK HV HnK HnV Hc Htail.
  change (Re.rmatch map_pattern ("MAP<" +:+ K +:+ "," +:+ V +:+ tail))
    with (Re.dot_plus
            (λ g rest, Re.run (Re.lits "," ++ Re.Group :: Re.lits ">" ++ [Re.Eol])
                         false rest ([] ++ [g]))
            (K +:+ String "," (V +:+ tail))).
  apply dot_plus_longest; [done..| |].
  - intros [|c t] r Ht Hr; [done|].
    rewrite sapp_cons in Hr. injection Hr as <- Hr.
    destruct (Re.run _ _ r _) as [x|] eqn:H; [|done].
    cbn [Re.lits app] in H. apply run_lit_inv in H as (r' & -> & H).
    destruct (app_eq_app_cons _ _ _ _ _ (tail_no_comma _ Htail) Hr) as (V2 & -> & ->).
    rewrite (no_inner_comma_split _ _ _ Hc eq_refl), sapp_nil_l in H.
    rewrite run_group, dot_plus_none in H; [done|].
    intros t2 r2 Ht2 Hr2.
    by apply (close_no_longer tail _ "" t2 r2).
  - cbn [Re.lits app Re.run]. rewrite Ascii.eqb_refl.
    by apply (second_group [K]).
Qed.

Lemma rmatch_map_inv u gs :
  Re.rmatch map_pattern u = Some gs →
  ∃ K V tail,
    gs = [K; V] ∧ K ≠ "" ∧ V ≠ "" ∧
    Str.has Re.newline K = false ∧ Str.has Re.newline V = false ∧
    no_inner_comma V = true ∧
    (tail = ">" ∨ tail = ">" +:+ nl) ∧
    u = "MAP<" +:+ K +:+ "," +:+ V +:+ tail.
Proof.
  unfold Re.rmatch, map_pattern. cbn [Re.lits app]. rewrite run_bol. intros H.
  do 4 (apply run_lit_inv in H as (? & -> & H)).
  rewrite run_group in H.
  apply dot_plus_Some_inv in H as (K & rest & -> & HK & HnK & H & Hmax).
  apply run_lit_inv in H as (rest' & -> & H).
  rewrite run_group in H.
  apply dot_plus_Some_inv in H as (V & tail & -> & HV & HnV & H & _).
  apply run_close_inv in H as [-> Htail].
  exists K, V, tail. split_and!; [done..| |done|done].
  apply no_inner_comma_intro. intros V1 c V2 ->.
  apply has_false_app in HnV as [HnV1 HnV2].
  assert (Re.run (Re.lits "," ++ Re.Group :: Re.lits ">" ++ [Re.Eol]) false
            (String "," (String c V2 +:+ tail)) ([] ++ [K +:+ String "," V1])
          = Some (([] ++ [K +:+ String "," V1]) ++ [String c V2])) as Hrun.
  { refine (second_group [K +:+ String "," V1] (String c V2) tail _ _ Htail); [done|].
    rewrite !has_cons in HnV2. apply orb_false_iff in HnV2 as [_ HnV2].
    by rewrite has_cons. }
  assert (Some (([] ++ [K +:+ String "," V1]) ++ [String c V2]) = None) as Habs;
    [|done].
  refine (eq_trans (eq_sym Hrun)
            (Hmax (String "," V1) (String "," (String c V2 +:+ tail)) _ _ _)); [done| |].
  - rewrite has_cons. apply orb_false_iff. split; [done|]. exact HnV1.
  - by rewrite !sapp_cons, sapp_assoc.
Qed.

End map_pattern_inversion.

Section more_mapper.
Implicit Types (t T K V e k v : string) (n : bool).

Lemma has_comma_lstrip s : Str.has "," (Str.lstrip s) = Str.has "," s.
Proof.
  induction s as [|c s IH]; [done|].
  cbn [Str.lstrip]. destruct (Str.is_space c) eqn:Hc; [|done].
  rewrite IH, has_cons.
  destruct (Ascii.eqb_spec "," c) as [<-|]; done.
Qed.

Lemma has_comma_rstrip s : Str.has "," (Str.rstrip s) = Str.has "," s.
Proof.
  induction s as [|c s IH]; [done|].
  rewrite rstrip_cons, has_cons, <-IH.
  destruct (Str.rstrip s) as [|c' r]; [|done].
  destruct (Str.is_space c) eqn:Hc; [|by rewrite has_cons].
  destruct (Ascii.eqb_spec "," c) as [<-|]; done.
Qed.

Lemma has_comma_normalized s : Str.has "," (normalized s) = Str.has "," s.
Proof.
  unfold normalized, Str.strip.
  by rewrite has_comma_rstrip, has_comma_lstrip, has_comma_upper.
Qed.

(** A text that normalizes to a key of the scalar table is not empty and
    holds no comma. *)
Lemma scalar_text_shape s v :
  type_mapping !! normalized s = Some v → s ≠ "" ∧ Str.has "," s = false.
Proof.
  intros H. split.
  - intros ->. done.
  - rewrite <-has_comma_normalized. apply type_mapping_Some in H.
    scalar_cases H;
      match goal with Hk : normalized s = _ |- _ => by rewrite Hk end.
Qed.

Lemma parse_array_type_Some_inv t e :
  parse_array_type t = Some e →
  ∃ T, T ≠ "" ∧ Str.has Re.newline T = false ∧
       (Str.upper t = "ARRAY<" +:+ T +:+ ">" ∨
        Str.upper t = "ARRAY<" +:+ T +:+ ">" +:+ nl) ∧
       e = Str.strip T.
Proof.
  unfold parse_array_type. intros H.
  destruct (Re.rmatch _ _) as [gs|] eqn:Hm; [|done].
  apply rmatch_array_inv in Hm as (T & -> & HT & Hnl & Hu).
  injection H as <-. by exists T.
Qed.

Lemma parse_map_type_Some_inv t k v :
  parse_map_type t = Some (k, v) →
  ∃ K V tail,
    K ≠ "" ∧ V ≠ "" ∧
    Str.has Re.newline K = false ∧ Str.has Re.newline V = false ∧
    no_inner_comma V = true ∧
    (tail = ">" ∨ tail = ">" +:+ nl) ∧
    Str.upper t = "MAP<" +:+ K +:+ "," +:+ V +:+ tail ∧
    k = Str.strip K ∧ v = Str.strip V.
Proof.
  unfold parse_map_type. intros H.
  destruct (Re.rmatch _ _) as [gs|] eqn:Hm; [|done].
  apply rmatch_map_inv in Hm as (K & V & tail & -> & HK & HV & HnK & HnV & Hc & Htail & Hu).
  injection H as <- <-. by exists K, V, tail.
Qed.

(** A part of an upper-cased text, stripped, is upper-cased and stripped. *)
Lemma part_normalized (a T b u : string) :
  Str.upper u = a +:+ T +:+ b →
  Str.upper (Str.strip T) = Str.strip T ∧ Str.strip (Str.strip T) = Str.strip T.
Proof.
  intros Hu. split; [|apply strip_idem].
  pose proof (upper_idem u) as Hi. rewrite Hu in Hi.
  apply upper_app_fixed in Hi as [_ Hi].
  apply upper_app_fixed in Hi as [Hi _].
  by rewrite <-strip_upper, Hi.
Qed.

End more_mapper.

(** X1. Whatever the input, a successful mapping is well-formed: an
    optional or required scalar (as [nullable] says), a repeated scalar, or,
    with the empty modifier, a map between two scalars; and the target
    types are only those of the scalar table. *)
Theorem mapping_well_formed (t m ty : string) (n : bool) :
  get_proto_field_info t n = Ok (m, ty) →
  (m = scalar_modifier n ∧ ty ∈ proto_scalars) ∨
  (m = "repeated" ∧ ty ∈ proto_scalars) ∨
  (m = "" ∧ ∃ a b, a ∈ proto_scalars ∧ b ∈ proto_scalars ∧
                   ty = "map<" +:+ a +:+ ", " +:+ b +:+ ">").
Proof.
  assert (∀ s v, type_mapping !! s = Some v → v ∈ proto_scalars) as Hv.
  { intros s v H. apply type_mapping_Some in H.
    scalar_cases H; subst v; unfold proto_scalars; set_solver. }
  unfold get_proto_field_info. intros H.
  repeat case_match; simplify_eq.
  - left. eauto.
  - left. split; [done|]. unfold proto_scalars. set_solver.
  - right. left. eauto.
  - right. right. split; [done|]. eauto 10.
Qed.

Lemma mapping_well_formed_witness :
  (∃ a b, a ∈ proto_scalars ∧ b ∈ proto_scalars ∧
          "map<int64, double>" = "map<" +:+ a +:+ ", " +:+ b +:+ ">").
Proof.
  destruct (mapping_well_formed "map<bigint, double>" "" "map<int64, double>" true
              eq_refl) as [[H _]|[[H _]|[_ H]]];
    [discriminate H|discriminate H|exact H].
Defined.

Local Set Warnings "-clear-no-such-hyp".

(** X2. [nullable] decides between optional and required and nothing else:
    the mapper fails for one value exactly when it fails for the other, with
    the same error, and succeeds with the same target type, the modifier
    being the same too unless it is the optional/required pair. *)
Theorem nullable_only_picks_modifier (t : string) :
  (∀ e, get_proto_field_info t true = Raise e ↔
        get_proto_field_info t false = Raise e) ∧
  (∀ m ty, get_proto_field_info t true = Ok (m, ty) ↔
           get_proto_field_info t false
             = Ok (if String.eqb m "optional" then "required" else m, ty) ∧
           m ≠ "required").
Proof.
  unfold get_proto_field_info. split.
  - intros e. repeat case_match; naive_solver.
  - intros m ty. unfold scalar_modifier.
    destruct (String.eqb_spec m "optional") as [->|Hm];
      repeat case_match; naive_solver.
Qed.

Lemma nullable_only_picks_modifier_witness :
  get_proto_field_info "varchar(255)" false = Ok ("required", "string") ∧
  get_proto_field_info "array<date>" false = Ok ("repeated", "int32").
Proof.
  split.
  - apply (proj1 (proj2 (nullable_only_picks_modifier "varchar(255)")
                    "optional" "string") eq_refl).
  - apply (proj1 (proj2 (nullable_only_picks_modifier "array<date>")
                    "repeated" "int32") eq_refl).
Defined.

(** X3. Among the ASCII inputs, [parse_array_type] recognizes exactly those
    whose upper-cased text is ARRAY<T>, optionally followed by one newline,
    with T non-empty and free of newlines; it returns T stripped. *)
Theorem parse_array_type_spec (t e : string) :
  is_ascii t = true →
  parse_array_type t = Some e ↔
  ∃ T, T ≠ "" ∧ Str.has Re.newline T = false ∧
       (Str.upper t = "ARRAY<" +:+ T +:+ ">" ∨
        Str.upper t = "ARRAY<" +:+ T +:+ ">" +:+ nl) ∧
       e = Str.strip T.
Proof.
  intros _. split; [apply parse_array_type_Some_inv|].
  intros (T & HT & Hnl & Hu & ->). unfold parse_array_type.
  destruct Hu as [-> | ->]; by rewrite ?rmatch_array, ?rmatch_array_nl.
Qed.

Lemma parse_array_type_spec_witness :
  parse_array_type ("array< int >" +:+ nl) = Some "INT".
Proof.
  apply (proj2 (parse_array_type_spec ("array< int >" +:+ nl) "INT" eq_refl)).
  exists " INT ". split_and!; [discriminate|reflexivity|by right|reflexivity].
Defined.

(** X4. Among the ASCII inputs, [parse_map_type] recognizes exactly those
    whose upper-cased text is MAP<K,V>, optionally followed by one newline,
    where K and V are non-empty and free of newlines and no comma of V has a
    character after it: K runs up to the last comma that is followed by some
    text.  It returns K and V stripped. *)
Theorem parse_map_type_spec (t k v : string) :
  is_ascii t = true →
  parse_map_type t = Some (k, v) ↔
  ∃ K V,
    K ≠ "" ∧ V ≠ "" ∧
    Str.has Re.newline K = false ∧ Str.has Re.newline V = false ∧
    no_inner_comma V = true ∧
    (Str.upper t = "MAP<" +:+ K +:+ "," +:+ V +:+ ">" ∨
     Str.upper t = "MAP<" +:+ K +:+ "," +:+ V +:+ ">" +:+ nl) ∧
    k = Str.strip K ∧ v = Str.strip V.
Proof.
  intros _. split.
  - intros H.
    apply parse_map_type_Some_inv in H
      as (K & V & tail & HK & HV & HnK & HnV & Hc & Htail & Hu & -> & ->).
    exists K, V. split_and!; [done..| |done|done].
    destruct Htail as [-> | ->]; auto.
  - intros (K & V & HK & HV & HnK & HnV & Hc & Hu & -> & ->).
    unfold parse_map_type.
    destruct Hu as [-> | ->]; rewrite rmatch_map_tail; auto.
Qed.

Lemma parse_map_type_spec_witness :
  parse_map_type "map<a,b,>" = Some ("A", "B,") ∧
  parse_map_type "map<a,b,c>" = Some ("A,B", "C").
Proof.
  split.
  - apply (proj2 (parse_map_type_spec "map<a,b,>" "A" "B," eq_refl)).
    exists "A", "B,".
    split_and!; [discriminate|discriminate|reflexivity|reflexivity|reflexivity
                |by left|reflexivity|reflexivity].
  - apply (proj2 (parse_map_type_spec "map<a,b,c>" "A,B" "C" eq_refl)).
    exists "A,B", "C".
    split_and!; [discriminate|discriminate|reflexivity|reflexivity|reflexivity
                |by left|reflexivity|reflexivity].
Defined.

(** X5. The texts the two parsers return are upper-cased and stripped
    already, whatever the case and the padding of the input: upper-casing or
    stripping them again changes nothing. *)
Theorem parsed_texts_normalized (t : string) :
  (∀ e, parse_array_type t = Some e →
        Str.upper e = e ∧ Str.strip e = e) ∧
  (∀ k v, parse_map_type t = Some (k, v) →
          (Str.upper k = k ∧ Str.strip k = k) ∧
          (Str.upper v = v ∧ Str.strip v = v)).
Proof.
  split.
  - intros e H. apply parse_array_type_Some_inv in H as (T & _ & _ & Hu & ->).
    destruct Hu as [Hu | Hu]; by apply (part_normalized _ _ _ _ Hu).
  - intros k v H.
    apply parse_map_type_Some_inv in H
      as (K & V & tail & _ & _ & _ & _ & _ & _ & Hu & -> & ->).
    split.
    + by apply (part_normalized "MAP<" K ("," +:+ V +:+ tail) t).
    + apply (part_normalized ("MAP<" +:+ K +:+ ",") V tail t).
      by rewrite Hu, !sapp_assoc.
Qed.

Lemma parsed_texts_normalized_witness :
  Str.upper "STRUCT<A:INT>" = "STRUCT<A:INT>" ∧
  Str.strip "STRUCT<A:INT>" = "STRUCT<A:INT>".
Proof.
  apply (proj1 (parsed_texts_normalized "Array<  struct<a:int> >")). reflexivity.
Defined.

(** X6. White space around the element type of an array is tolerated, and
    so is any letter case: ARRAY<T> maps to a repeated field as soon as T,
    upper-cased and stripped, is a key of the scalar table.  T must hold no
    newline, which the pattern does not cross. *)
Theorem array_element_padding (T v : string) (n : bool) :
  Str.has Re.newline T = false →
  type_mapping !! normalized T = Some v →
  get_proto_field_info ("ARRAY<" +:+ T +:+ ">") n = Ok ("repeated", v).
Proof.
  intros Hnl H. destruct (scalar_text_shape _ _ H) as [HT _].
  unfold get_proto_field_info.
  rewrite upper_array, type_mapping_array.
  change (Str.startswith "VARCHAR" ("ARRAY<" +:+ _)) with false. cbv iota.
  by rewrite parse_array_type_array, normalized_upper, H.
Qed.

Lemma array_element_padding_witness :
  get_proto_field_info "Array< bigint >" true = Ok ("repeated", "int64").
Proof.
  apply (array_element_padding " bigint " "int64" true); reflexivity.
Defined.

(** X7. The same holds for the key and the value of a map: MAP<K,V> maps
    to map<k, v> as soon as K and V, upper-cased and stripped, are keys of
    the scalar table and hold no newline. *)
Theorem map_parts_padding (K V a b : string) (n : bool) :
  Str.has Re.newline K = false → Str.has Re.newline V = false →
  type_mapping !! normalized K = Some a →
  type_mapping !! normalized V = Some b →
  get_proto_field_info ("MAP<" +:+ K +:+ "," +:+ V +:+ ">") n
    = Ok ("", "map<" +:+ a +:+ ", " +:+ b +:+ ">").
Proof.
  intros HnK HnV Ha Hb.
  destruct (scalar_text_shape _ _ Ha) as [HK _].
  destruct (scalar_text_shape _ _ Hb) as [HV Hc].
  unfold get_proto_field_info.
  rewrite upper_map, type_mapping_map.
  change (Str.startswith "VARCHAR" ("MAP<" +:+ _)) with false. cbv iota.
  rewrite parse_array_type_map, parse_map_type_map by done.
  by rewrite !normalized_upper, Ha, Hb.
Qed.

Lemma map_parts_padding_witness :
  get_proto_field_info "map<string, timestamp>" false
    = Ok ("", "map<string, int64>").
Proof.
  apply (map_parts_padding "string" " timestamp" "string" "int64" false);
    reflexivity.
Defined.

(** X8. White space in front of a type text is never tolerated: whatever
    follows it, the mapper fails and names the raw input. *)
Theorem leading_space_rejected (c : ascii) (t : string) (n : bool) :
  Str.is_space c = true →
  get_proto_field_info (String c t) n
    = Raise (ValueError ("Unsupported column type: " +:+ String c t)).
Proof.
  intros Hc.
  assert (∀ a : ascii, Str.is_space a = false → Ascii.eqb a c = false) as Hne.
  { intros a Ha. destruct (Ascii.eqb_spec a c) as [->|]; congruence. }
  unfold get_proto_field_info, parse_array_type, parse_map_type.
  cbn [Str.upper]. rewrite (upper_char_space _ Hc).
  destruct (type_mapping !! _) as [v|] eqn:H.
  { apply type_mapping_Some in H.
    scalar_cases H; subst c; discriminate Hc. }
  cbn [Str.startswith]. rewrite (Hne "V"%char) by done.
  unfold Re.rmatch, array_pattern, map_pattern. cbn [Re.lits app Re.run].
  by rewrite (Hne "A"%char), (Hne "M"%char).
Qed.

Lemma leading_space_rejected_witness :
  get_proto_field_info " INT" true
    = Raise (ValueError "Unsupported column type:  INT").
Proof. apply (leading_space_rejected " " "INT" true). reflexivity. Defined.

(** X9. The generation succeeds exactly when every column maps and the
    operating system completes the write of the text built from all of
    them; and it changes the file system only when every column maps: no
    file is written with a column left out. *)
Theorem generation_succeeds_iff (message_name : string) (columns : list Column)
    (output_path : string) (fs : FileSystem) :
  ((generate_proto_file message_name columns output_path fs).1 = Ok () ↔
   ∃ descrs,
     Forall2 maps_to columns descrs ∧
     write_outcome_of fs output_path
       (Spec.emit message_name (zip (name <$> columns) descrs)) = Written) ∧
  ((generate_proto_file message_name columns output_path fs).2 ≠ fs →
   Forall (λ col, ∃ d, maps_to col d) columns).
Proof.
  assert (∀ lines, proto_lines message_name columns = Ok lines →
            ∃ descrs, Forall2 maps_to columns descrs) as Hinv.
  { unfold proto_lines. intros lines H.
    destruct (add_fields _ _ _) as [pc|e] eqn:Hadd; [|done].
    by apply add_fields_Ok_inv in Hadd. }
  split; [split|].
  - intros H.
    destruct (proto_lines message_name columns) as [lines|e] eqn:Hl.
    + destruct (Hinv _ eq_refl) as [descrs Hds]. exists descrs. split; [done|].
      rewrite (generate_proto_file_writes _ _ _ output_path fs Hds) in H.
      unfold write_file in H. by destruct (write_outcome_of fs _ _).
    + unfold generate_proto_file in H. by rewrite Hl in H.
  - intros (descrs & Hds & Hw).
    rewrite (generate_proto_file_writes _ _ _ output_path fs Hds).
    unfold write_file. by rewrite Hw.
  - intros H.
    destruct (proto_lines message_name columns) as [lines|e] eqn:Hl.
    + destruct (Hinv _ eq_refl) as [descrs Hds].
      clear -Hds. induction Hds; constructor; eauto.
    + unfold generate_proto_file in H. by rewrite Hl in H.
Qed.

Lemma generation_succeeds_iff_witness :
  (generate_proto_file "Row" row_columns "out.proto" (mkFS ∅ (λ _ _, Written))).1
    = Ok ().
Proof.
  apply (proj2 (proj1 (generation_succeeds_iff "Row" row_columns "out.proto"
                         (mkFS ∅ (λ _ _, Written))))).
  exists [("required", "int32"); ("repeated", "string"); ("", "map<string, string>")].
  split; [repeat constructor|reflexivity].
Defined.

(** X10. Appending columns to a schema leaves the lines already there as
    they were: the header, the message line and the line of every earlier
    column, with its tag. *)
Theorem appended_columns_keep_tags (message_name : string)
    (columns more : list Column) (lines' : list string) :
  proto_lines message_name (columns ++ more) = Ok lines' →
  ∃ lines,
    proto_lines message_name columns = Ok lines ∧
    ∀ i, i < 3 + length columns → lines' !! i = lines !! i.
Proof.
  intros H. unfold proto_lines in H.
  destruct (add_fields _ _ _) as [pc|e] eqn:Hadd; [|done]. injection H as <-.
  destruct (add_fields_Ok_inv _ _ _ _ Hadd) as [descrs Hds].
  rewrite (add_fields_ok _ _ _ _ Hds) in Hadd. injection Hadd as <-.
  apply Forall2_app_inv_l in Hds as (d1 & d2 & H1 & H2 & ->).
  eexists. split; [by apply proto_lines_ok|].
  intros i Hi.
  pose proof (Forall2_length _ _ _ H1) as Hlen.
  rewrite zip_with_app, imap_app by done.
  set (head := [syntax_line; ""; message_line message_name]).
  set (body := imap _ (zip columns d1)).
  assert (length (head ++ body) = 3 + length columns) as Hhb.
  { subst head body. rewrite length_app, length_imap, length_zip_with. simpl. lia. }
  assert (∀ rest, (head ++ body ++ rest) !! i = (head ++ body) !! i) as Hpre.
  { intros rest. rewrite (assoc_L (++)). apply lookup_app_l. lia. }
  cbn [app]. rewrite <-(assoc_L (++) body).
  exact (eq_trans (Hpre _) (eq_sym (Hpre _))).
Qed.

Lemma appended_columns_keep_tags_witness :
  ∃ lines,
    proto_lines "Row" [mkColumn "id" "INT" false] = Ok lines ∧
    ∀ i, i < 3 + 1 →
      [syntax_line; ""; "message Row {"; "    required int32 id = 1;";
       "    optional string note = 2;"; "}"; ""] !! i = lines !! i.
Proof.
  apply (appended_columns_keep_tags "Row" [mkColumn "id" "INT" false]
           [mkColumn "note" "VARCHAR(80)" true]).
  reflexivity.
Defined.

(** ** The fetched schema *)

Section schema.
Implicit Types (col v : Py.json) (d : gmap string Py.json)
  (cols pre rest : list Py.json) (rows : list (gmap string Py.json))
  (table_info : gmap string Py.json).

Lemma column_dict_Return_inv col row :
  column_dict col = Py.Return row →
  ∃ d, col = Py.JDict d ∧ Forall (λ k, is_Some (d !! k)) column_keys ∧
       row_of_dict d row.
Proof.
  unfold column_dict, Py.subscript. destruct col as [| | | | |d]; try done.
  destruct (d !! "name") as [n|] eqn:Hn; [|done].
  destruct (d !! "type_text") as [t|] eqn:Ht; [|done].
  destruct (d !! "nullable") as [nu|] eqn:Hnu; [|done].
  cbn [Py.bind]. intros [= <-]. exists d. split_and!; [done| |].
  - unfold column_keys. repeat constructor; by eexists.
  - split.
    + rewrite !dom_insert_L, dom_empty_L. unfold column_keys. set_solver.
    + intros k Hk. unfold column_keys in Hk.
      apply elem_of_cons in Hk as [->|Hk]; [by rewrite lookup_insert_eq|].
      apply elem_of_cons in Hk as [->|Hk];
        [by rewrite lookup_insert_ne, lookup_insert_eq by done|].
      apply elem_of_cons in Hk as [->|Hk]; [|by apply elem_of_nil in Hk].
      by rewrite !lookup_insert_ne, lookup_insert_eq by done.
Qed.

Lemma column_dict_complete col :
  complete_column col → ∃ row, column_dict col = Py.Return row.
Proof.
  intros (d & -> & H). unfold column_keys in H.
  apply Forall_cons in H as [[n Hn] H].
  apply Forall_cons in H as [[t Ht] H].
  apply Forall_cons in H as [[nu Hnu] _].
  unfold column_dict, Py.subscript. rewrite Hn, Ht, Hnu. by eexists.
Qed.

Lemma column_dict_Throw_inv col e :
  column_dict col = Py.Throw e →
  (e = Py.TypeError ∧ ∀ d, col ≠ Py.JDict d) ∨
  (∃ d k, col = Py.JDict d ∧ first_missing d = Some k ∧ e = Py.KeyError k).
Proof.
  unfold column_dict, Py.subscript, first_missing, column_keys.
  destruct col as [| | | | |d]; try (intros [= <-]; by left). intros H. right.
  exists d. cbn [list_find].
  destruct (d !! "name") as [n|] eqn:Hn; [|rewrite decide_True by done; naive_solver].
  rewrite decide_False by done.
  destruct (d !! "type_text") as [t|] eqn:Ht;
    [|rewrite decide_True by done; naive_solver].
  rewrite decide_False by done.
  destruct (d !! "nullable") as [nu|] eqn:Hnu;
    [|rewrite decide_True by done; naive_solver].
  done.
Qed.

Lemma column_dict_missing d k :
  first_missing d = Some k → column_dict (Py.JDict d) = Py.Throw (Py.KeyError k).
Proof.
  destruct (column_dict (Py.JDict d)) as [row|e] eqn:H.
  - apply column_dict_Return_inv in H as (d' & [= <-] & Hall & _).
    unfold first_missing, column_keys in *. cbn [list_find].
    apply Forall_cons in Hall as [[? Hn] Hall].
    apply Forall_cons in Hall as [[? Ht] Hall].
    apply Forall_cons in Hall as [[? Hnu] _].
    rewrite Hn, Ht, Hnu. by rewrite !decide_False by done.
  - apply column_dict_Throw_inv in H as [[_ H]|(d' & k' & [= <-] & Hk & ->)].
    + by destruct (H d).
    + congruence.
Qed.

Lemma comprehension_Return {X Y} (f : X → Py.outcome Y) (l : list X) (ys : list Y) :
  Py.comprehension f l = Py.Return ys ↔ Forall2 (λ x y, f x = Py.Return y) l ys.
Proof.
  revert ys. induction l as [|x l IH]; intros ys; cbn [Py.comprehension].
  - split; [intros [= <-]; constructor|by inversion 1].
  - destruct (f x) as [y|e] eqn:Hx; cbn [Py.bind].
    + destruct (Py.comprehension f l) as [ys'|e] eqn:Hl; cbn [Py.bind].
      * split.
        -- intros [= <-]. constructor; [done|]. by apply IH.
        -- inversion 1 as [|? y' ? ys'' Hy Hys]; subst.
           apply IH in Hys. congruence.
      * split; [done|]. inversion 1 as [|? y' ? ys'' Hy Hys]; subst.
        apply IH in Hys. done.
    + split; [done|]. inversion 1; congruence.
Qed.

Lemma comprehension_Throw {X Y} (f : X → Py.outcome Y) (pre : list X) x
    (rest : list X) e :
  Forall (λ x, ∃ y, f x = Py.Return y) pre → f x = Py.Throw e →
  Py.comprehension f (pre ++ x :: rest) = Py.Throw e.
Proof.
  intros Hpre Hx. induction Hpre as [|x' pre [y Hy] _ IH]; cbn [app Py.comprehension].
  - by rewrite Hx.
  - by rewrite Hy, IH.
Qed.

Lemma comprehension_Throw_inv {X Y} (f : X → Py.outcome Y) (l : list X) e :
  Py.comprehension f l = Py.Throw e → ∃ x, x ∈ l ∧ f x = Py.Throw e.
Proof.
  induction l as [|x l IH]; cbn [Py.comprehension]; [done|].
  destruct (f x) as [y|e'] eqn:Hx; cbn [Py.bind].
  - destruct (Py.comprehension f l) as [ys|e'] eqn:Hl; cbn [Py.bind]; [done|].
    intros [= ->]. destruct (IH eq_refl) as (x' & Hin & Hx').
    exists x'. split; [by right|done].
  - intros [= ->]. exists x. split; [by left|done].
Qed.

(** The function on a table whose "columns" entry is a list. *)
Lemma extract_columns_list table_info cols :
  table_info !! "columns" = Some (Py.JList cols) →
  extract_columns table_info =
    match Py.comprehension column_dict cols with
    | Py.Throw (Py.KeyError e) =>
        Py.Throw (Py.KeyError
          ("Failed to extract column information: missing key " +:+ Py.str_error e))
    | r => r
    end.
Proof.
  intros H. unfold extract_columns, Py.subscript. rewrite H.
  cbn [Py.bind Py.iter]. by destruct (Py.comprehension _ _) as [|[]].
Qed.

Lemma first_missing_key d k : first_missing d = Some k → k ∈ column_keys.
Proof.
  unfold first_missing. destruct (list_find _ _) as [[i k']|] eqn:H; [|done].
  intros [= <-]. apply list_find_Some in H as (H & _ & _).
  by apply list_elem_of_lookup_2 in H.
Qed.

Lemma str_error_key k :
  k ∈ "columns" :: column_keys → Py.str_error k = "'" +:+ k +:+ "'".
Proof.
  unfold column_keys. intros H.
  repeat (apply elem_of_cons in H as [->|H]; [done|]). by apply elem_of_nil in H.
Qed.

End schema.

Section schema_results.
Implicit Types (d row : gmap string Py.json) (cols : list Py.json).

Lemma row_of_dict_unique d row n t nu :
  d !! "name" = Some n → d !! "type_text" = Some t → d !! "nullable" = Some nu →
  row_of_dict d row →
  row = <["name" := n]> (<["type_text" := t]> (<["nullable" := nu]> ∅)).
Proof.
  intros Hn Ht Hnu [Hdom Hval]. apply map_eq. intros k.
  destruct (decide (k ∈ column_keys)) as [Hk|Hk].
  - rewrite (Hval _ Hk). unfold column_keys in Hk.
    apply elem_of_cons in Hk as [->|Hk]; [by rewrite lookup_insert_eq|].
    apply elem_of_cons in Hk as [->|Hk];
      [by rewrite lookup_insert_ne, lookup_insert_eq by done|].
    apply elem_of_cons in Hk as [->|Hk]; [|by apply elem_of_nil in Hk].
    by rewrite !lookup_insert_ne, lookup_insert_eq by done.
  - assert (row !! k = None) as ->.
    { apply not_elem_of_dom. rewrite Hdom. by rewrite elem_of_list_to_set. }
    unfold column_keys in Hk.
    rewrite !lookup_insert_ne, lookup_empty; [done|set_solver..].
Qed.

Lemma column_dict_Return_iff col row :
  column_dict col = Py.Return row ↔
  ∃ d, col = Py.JDict d ∧ Forall (λ k, is_Some (d !! k)) column_keys ∧
       row_of_dict d row.
Proof.
  split; [apply column_dict_Return_inv|].
  intros (d & -> & Hall & Hrow). unfold column_keys in Hall.
  apply Forall_cons in Hall as [[n Hn] Hall].
  apply Forall_cons in Hall as [[t Ht] Hall].
  apply Forall_cons in Hall as [[nu Hnu] _].
  rewrite (row_of_dict_unique _ _ _ _ _ Hn Ht Hnu Hrow).
  unfold column_dict, Py.subscript. by rewrite Hn, Ht, Hnu.
Qed.

End schema_results.

(** X11. On a table whose "columns" entry is a list, [extract_columns]
    returns rows exactly when every item is a dict holding the keys name,
    type_text and nullable; the rows then come one per item, in order, each
    with these three keys only and the values the item has for them. *)
Theorem extract_columns_projects (table_info : gmap string Py.json)
    (cols : list Py.json) (rows : list (gmap string Py.json)) :
  table_info !! "columns" = Some (Py.JList cols) →
  extract_columns table_info = Py.Return rows ↔
  Forall2 (λ col row,
             ∃ d, col = Py.JDict d ∧
                  Forall (λ k, is_Some (d !! k)) column_keys ∧
                  row_of_dict d row) cols rows.
Proof.
  intros H. rewrite (extract_columns_list _ _ H).
  split.
  - destruct (Py.comprehension column_dict cols) as [rows'|[]] eqn:Hc; try done.
    intros [= <-]. apply comprehension_Return in Hc.
    eapply Forall2_impl; [exact Hc|]. intros col row. apply column_dict_Return_iff.
  - intros Hall.
    assert (Py.comprehension column_dict cols = Py.Return rows) as ->; [|done].
    apply comprehension_Return.
    eapply Forall2_impl; [exact Hall|]. intros col row. apply column_dict_Return_iff.
Qed.

Lemma extract_columns_projects_witness :
  extract_columns
    {[ "name" := Py.JStr "t"; "columns" := Py.JList
         [Py.JDict {[ "name" := Py.JStr "id"; "type_text" := Py.JStr "int";
                      "type_name" := Py.JStr "INT"; "nullable" := Py.JBool false ]}] ]}
  = Py.Return
      [ {[ "name" := Py.JStr "id"; "type_text" := Py.JStr "int";
           "nullable" := Py.JBool false ]} ].
Proof.
  refine (proj2 (extract_columns_projects _ _ _ _) _); [reflexivity|].
  constructor; [|constructor].
  eexists. split; [reflexivity|]. split.
  - repeat constructor; eexists; reflexivity.
  - split; [by apply leibniz_equiv; vm_compute|].
    intros k Hk. unfold column_keys in Hk.
    repeat (apply elem_of_cons in Hk as [->|Hk]; [reflexivity|]).
    by apply elem_of_nil in Hk.
Defined.

(** X12. [extract_columns] raises nothing but a TypeError or a KeyError
    whose text is "Failed to extract column information: missing key 'k'",
    k being columns, name, type_text or nullable; and a table without the
    key columns gives that error for 'columns'. *)
Theorem extract_columns_errors (table_info : gmap string Py.json) :
  (∀ e, extract_columns table_info = Py.Throw e →
        e = Py.TypeError ∨
        ∃ k, k ∈ "columns" :: column_keys ∧
             e = Py.KeyError ("Failed to extract column information: missing key '"
                                +:+ k +:+ "'")) ∧
  (table_info !! "columns" = None →
   extract_columns table_info
     = Py.Throw (Py.KeyError
         "Failed to extract column information: missing key 'columns'")).
Proof.
  split.
  - intros e. unfold extract_columns, Py.subscript.
    destruct (table_info !! "columns") as [v|]; cbn [Py.bind].
    + destruct (Py.iter v) as [cols|e'] eqn:Hit; cbn [Py.bind].
      * destruct (Py.comprehension column_dict cols) as [rows|e'] eqn:Hc; [done|].
        apply comprehension_Throw_inv in Hc as (col & _ & Hc).
        apply column_dict_Throw_inv in Hc as [[-> _]|(d & k & -> & Hk & ->)].
        -- intros [= <-]. by left.
        -- intros [= <-]. right. exists k.
           apply first_missing_key in Hk.
           split; [by right|]. rewrite str_error_key by by right. done.
      * destruct v; try done; injection Hit as <-; intros [= <-]; by left.
    + intros [= <-]. right. exists "columns". split; [by left|done].
  - intros H. unfold extract_columns, Py.subscript. by rewrite H.
Qed.

Lemma extract_columns_errors_witness :
  extract_columns {[ "table_type" := Py.JStr "MANAGED" ]}
    = Py.Throw (Py.KeyError
        "Failed to extract column information: missing key 'columns'").
Proof.
  apply (proj2 (extract_columns_errors {[ "table_type" := Py.JStr "MANAGED" ]})).
  reflexivity.
Defined.

(** X13. When the items before it are complete, the first item that is a
    dict lacking a key decides the error: it names the first key missing in
    the order name, type_text, nullable, whatever the later items are. *)
Theorem first_incomplete_column_named (table_info : gmap string Py.json)
    (pre rest : list Py.json) (d : gmap string Py.json) (k : string) :
  table_info !! "columns" = Some (Py.JList (pre ++ Py.JDict d :: rest)) →
  Forall complete_column pre →
  first_missing d = Some k →
  extract_columns table_info
    = Py.Throw (Py.KeyError
        ("Failed to extract column information: missing key '" +:+ k +:+ "'")).
Proof.
  intros H Hpre Hk. rewrite (extract_columns_list _ _ H).
  rewrite (comprehension_Throw column_dict pre (Py.JDict d) rest (Py.KeyError k)).
  - rewrite str_error_key; [done|]. right. by apply first_missing_key in Hk.
  - eapply Forall_impl; [exact Hpre|]. apply column_dict_complete.
  - by apply column_dict_missing.
Qed.

Lemma first_incomplete_column_named_witness :
  extract_columns
    {[ "columns" := Py.JList
         [Py.JDict {[ "name" := Py.JStr "id"; "type_text" := Py.JStr "int";
                      "nullable" := Py.JBool false ]};
          Py.JDict {[ "name" := Py.JStr "ts" ]};
          Py.JNull] ]}
  = Py.Throw (Py.KeyError
      "Failed to extract column information: missing key 'type_text'").
Proof.
  apply (first_incomplete_column_named _
           [Py.JDict {[ "name" := Py.JStr "id"; "type_text" := Py.JStr "int";
                        "nullable" := Py.JBool false ]}]
           [Py.JNull] {[ "name" := Py.JStr "ts" ]} "type_text").
  - reflexivity.
  - constructor; [|constructor]. eexists. split; [reflexivity|].
    repeat constructor; eexists; reflexivity.
  - reflexivity.
Defined.

(** X14. A schema of the wrong shape gives a TypeError, which the handler
    for KeyError lets through: so does an item that is no dict, when the
    items before it are complete, and so does a "columns" entry that is no
    list, unless it is an empty dict or an empty text, which give no row at
    all. *)
Theorem wrong_shape_is_type_error (table_info : gmap string Py.json) :
  (∀ pre c rest,
     table_info !! "columns" = Some (Py.JList (pre ++ c :: rest)) →
     Forall complete_column pre → (∀ d, c ≠ Py.JDict d) →
     extract_columns table_info = Py.Throw Py.TypeError) ∧
  (∀ v,
     table_info !! "columns" = Some v → (∀ l, v ≠ Py.JList l) →
     (v = Py.JDict ∅ ∨ v = Py.JStr "" → extract_columns table_info = Py.Return []) ∧
     (v ≠ Py.JDict ∅ → v ≠ Py.JStr "" →
      extract_columns table_info = Py.Throw Py.TypeError)).
Proof.
  split.
  - intros pre c rest H Hpre Hc. rewrite (extract_columns_list _ _ H).
    rewrite (comprehension_Throw column_dict pre c rest Py.TypeError); [done| |].
    + eapply Forall_impl; [exact Hpre|]. apply column_dict_complete.
    + destruct c; try done. by destruct (Hc d).
  - intros v H Hv. unfold extract_columns, Py.subscript. rewrite H. cbn [Py.bind].
    split.
    + intros [-> | ->]; [|done]. cbn [Py.iter]. by rewrite map_to_list_empty.
    + intros Hd Hs. destruct v as [| | |s|l|d]; try done.
      * destruct s as [|c s]; done.
      * by destruct (Hv l).
      * cbn [Py.iter]. destruct (map_to_list d) as [|[k x] l] eqn:Hl; [|done].
        apply map_to_list_empty_iff in Hl. by subst d.
Qed.

Lemma wrong_shape_is_type_error_witness :
  extract_columns {[ "columns" := Py.JList [Py.JStr "id"] ]} = Py.Throw Py.TypeError ∧
  extract_columns {[ "columns" := Py.JDict ∅ ]} = Py.Return [] ∧
  extract_columns {[ "columns" := Py.JNull ]} = Py.Throw Py.TypeError.
Proof.
  split_and!.
  - apply (proj1 (wrong_shape_is_type_error
                    {[ "columns" := Py.JList [Py.JStr "id"] ]}) [] (Py.JStr "id") []);
      [reflexivity|constructor|discriminate].
  - refine (proj1 (proj2 (wrong_shape_is_type_error {[ "columns" := Py.JDict ∅ ]})
                     (Py.JDict ∅) eq_refl _) _); [discriminate|by left].
  - refine (proj2 (proj2 (wrong_shape_is_type_error {[ "columns" := Py.JNull ]})
                     Py.JNull eq_refl _) _ _); discriminate.
Defined.

(** ** The message name *)

Section message_name.
Implicit Types (s x p : string) (sep : ascii) (l : list string).

Lemma split_cons sep c s :
  split sep (String c s) =
    if Ascii.eqb c sep then "" :: split sep s
    else match split sep s with
         | x :: rest => String c x :: rest
         | [] => [String c ""]
         end.
Proof. reflexivity. Qed.

Lemma split_nonempty sep s : split sep s ≠ [].
Proof.
  induction s as [|c s IH]; [done|]. rewrite split_cons.
  destruct (Ascii.eqb c sep); [done|]. by destruct (split sep s).
Qed.

(** Joining the parts with the separator gives the text back. *)
Lemma join_split sep s : Str.join (String sep "") (split sep s) = s.
Proof.
  induction s as [|c s IH]; [done|]. rewrite split_cons.
  pose proof (split_nonempty sep s) as Hne.
  destruct (Ascii.eqb_spec c sep) as [->|Hc].
  - destruct (split sep s) as [|y rest]; [done|].
    by rewrite join_cons, IH.
  - destruct (split sep s) as [|y rest]; [done|].
    destruct rest as [|z rest].
    + simpl in *. by rewrite IH.
    + rewrite join_cons in *. by rewrite sapp_cons, IH.
Qed.

Lemma split_parts_sep_free sep s :
  Forall (λ x, Str.has sep x = false) (split sep s).
Proof.
  induction s as [|c s IH]; [by repeat constructor|]. rewrite split_cons.
  destruct (Ascii.eqb_spec c sep) as [->|Hc].
  - by constructor.
  - pose proof (split_nonempty sep s) as Hne.
    destruct (split sep s) as [|y rest]; [done|].
    apply Forall_cons in IH as [Hy Hrest]. constructor; [|done].
    rewrite has_cons, Hy, orb_false_r. apply Ascii.eqb_neq. congruence.
Qed.

Lemma join_snoc sepstr l x :
  l ≠ [] → Str.join sepstr (l ++ [x]) = Str.join sepstr l +:+ sepstr +:+ x.
Proof.
  induction l as [|y l IH]; [done|]. intros _.
  destruct l as [|z l]; [done|].
  change (Str.join sepstr ((y :: z :: l) ++ [x]))
    with (y +:+ sepstr +:+ Str.join sepstr ((z :: l) ++ [x])).
  rewrite IH by done. by rewrite join_cons, !sapp_assoc.
Qed.

Lemma last_part sep s :
  let x := default "" (last (split sep s)) in
  Str.has sep x = false ∧ (s = x ∨ ∃ p, s = p +:+ String sep x).
Proof.
  pose proof (join_split sep s) as Hj.
  pose proof (split_parts_sep_free sep s) as Hfree.
  destruct (split sep s) as [|y l] eqn:Hs using rev_ind.
  { by destruct (split_nonempty sep s). }
  clear IHl. rewrite last_snoc. cbn [default].
  apply Forall_app in Hfree as [_ Hfree]. apply Forall_cons in Hfree as [Hy _].
  split; [done|].
  destruct l as [|z l]; [by left|]. right.
  rewrite join_snoc in Hj by done. eexists. by rewrite <-Hj.
Qed.

End message_name.

(** X15. The message name is the option given, when there is one and it is
    not empty.  Otherwise it is the part of the table name after its last
    dot, or the whole table name when it holds no dot: an empty option is
    treated as a missing one, and the name chosen holds no dot. *)
Theorem message_name_choice (proto_msg : option string) (table : string) :
  (∀ m, proto_msg = Some m → m ≠ "" → message_name_of proto_msg table = m) ∧
  (proto_msg = None ∨ proto_msg = Some "" →
   let m := message_name_of proto_msg table in
   Str.has "." m = false ∧ (table = m ∨ ∃ p, table = p +:+ "." +:+ m)).
Proof.
  split.
  - intros m -> Hm. unfold message_name_of.
    by rewrite (proj2 (String.eqb_neq _ _) Hm).
  - intros H. assert (message_name_of proto_msg table
                      = default "" (last (split "." table))) as ->.
    { by destruct H as [-> | ->]. }
    apply last_part.
Qed.

Lemma message_name_choice_witness :
  message_name_of (Some "Event") "main.default.events" = "Event" ∧
  (Str.has "." (message_name_of (Some "") "main.default.events") = false ∧
   ("main.default.events" = message_name_of (Some "") "main.default.events" ∨
    ∃ p, "main.default.events"
           = p +:+ "." +:+ message_name_of (Some "") "main.default.events")).
Proof.
  split.
  - apply (proj1 (message_name_choice (Some "Event") "main.default.events"));
      [reflexivity|discriminate].
  - apply (proj2 (message_name_choice (Some "") "main.default.events")). by right.
Defined.

(** ** Which type the error names *)

(** X16. On ASCII input, whenever the mapper fails it raises a ValueError
    that names a type: the element the array parser returned, the key or
    the value the map parser returned, or the raw input when neither parser
    matched.  It does fail for ARRAY<T> with T outside the scalar table,
    naming T; for MAP<K,V>, V holding no comma, with K outside the table,
    naming K, and with K inside and V outside, naming V; and for an input of
    no form, naming that input.  T, K and V are named upper-cased and
    stripped. *)
Theorem unsupported_type_named :
  (∀ t n e,
     is_ascii t = true →
     get_proto_field_info t n = Raise e →
     (∃ el, parse_array_type t = Some el ∧
            e = ValueError ("Unsupported array element type: " +:+ el)) ∨
     (∃ k v, parse_array_type t = None ∧ parse_map_type t = Some (k, v) ∧
             (e = ValueError ("Unsupported map key type: " +:+ k) ∨
              e = ValueError ("Unsupported map value type: " +:+ v))) ∨
     (parse_array_type t = None ∧ parse_map_type t = None ∧
      e = ValueError ("Unsupported column type: " +:+ t))) ∧
  (∀ T n,
     is_ascii T = true →
     T ≠ "" → Str.has Re.newline T = false →
     type_mapping !! Str.upper (normalized T) = None →
     get_proto_field_info ("ARRAY<" +:+ T +:+ ">") n
       = Raise (ValueError ("Unsupported array element type: " +:+ normalized T))) ∧
  (∀ K V n,
     is_ascii K = true → is_ascii V = true →
     K ≠ "" → V ≠ "" →
     Str.has Re.newline K = false → Str.has Re.newline V = false →
     Str.has "," V = false →
     type_mapping !! Str.upper (normalized K) = None →
     get_proto_field_info ("MAP<" +:+ K +:+ "," +:+ V +:+ ">") n
       = Raise (ValueError ("Unsupported map key type: " +:+ normalized K))) ∧
  (∀ K V n,
     is_ascii K = true → is_ascii V = true →
     K ≠ "" → V ≠ "" →
     Str.has Re.newline K = false → Str.has Re.newline V = false →
     Str.has "," V = false →
     is_Some (type_mapping !! Str.upper (normalized K)) →
     type_mapping !! Str.upper (normalized V) = None →
     get_proto_field_info ("MAP<" +:+ K +:+ "," +:+ V +:+ ">") n
       = Raise (ValueError ("Unsupported map value type: " +:+ normalized V))) ∧
  (∀ t n,
     is_ascii t = true →
     type_mapping !! Str.upper t = None →
     Str.startswith "VARCHAR" (Str.upper t) = false →
     parse_array_type t = None → parse_map_type t = None →
     get_proto_field_info t n
       = Raise (ValueError ("Unsupported column type: " +:+ t))).
Proof.
  split_and!.
  - intros t n e _. unfold get_proto_field_info.
    repeat case_match; try done; intros [= <-]; naive_solver.
  - intros T n _ Hne Hnl Hel. unfold get_proto_field_info.
    rewrite upper_array, type_mapping_array.
    change (Str.startswith "VARCHAR" ("ARRAY<" +:+ _)) with false. cbv iota.
    by rewrite parse_array_type_array, Hel.
  - intros K V n _ _ HK HV HnK HnV Hc Hkey. unfold get_proto_field_info.
    rewrite upper_map, type_mapping_map.
    change (Str.startswith "VARCHAR" ("MAP<" +:+ _)) with false. cbv iota.
    by rewrite parse_array_type_map, parse_map_type_map, Hkey.
  - intros K V n _ _ HK HV HnK HnV Hc [a Hkey] Hval. unfold get_proto_field_info.
    rewrite upper_map, type_mapping_map.
    change (Str.startswith "VARCHAR" ("MAP<" +:+ _)) with false. cbv iota.
    by rewrite parse_array_type_map, parse_map_type_map, Hkey, Hval.
  - intros t n _ Ht Hv Ha Hm. unfold get_proto_field_info.
    by rewrite Ht, Hv, Ha, Hm.
Qed.

Lemma unsupported_type_named_witness :
  (∀ n, get_proto_field_info "ARRAY<ARRAY<INT>>" n
          = Raise (ValueError "Unsupported array element type: ARRAY<INT>")) ∧
  (∀ n, get_proto_field_info "MAP<STRUCT,INT>" n
          = Raise (ValueError "Unsupported map key type: STRUCT")) ∧
  (∀ n, get_proto_field_info "map<int, decimal(10)>" n
          = Raise (ValueError "Unsupported map value type: DECIMAL(10)")) ∧
  (∀ n, get_proto_field_info "UNKNOWNTYPE" n
          = Raise (ValueError "Unsupported column type: UNKNOWNTYPE")) ∧
  (∀ n, get_proto_field_info "DECIMAL(10,2)" n
          = Raise (ValueError "Unsupported column type: DECIMAL(10,2)")).
Proof.
  destruct unsupported_type_named as (_ & Harr & Hkey & Hval & Hraw).
  split_and!; intros n.
  - apply (Harr "ARRAY<INT>" n); [reflexivity|discriminate|reflexivity|reflexivity].
  - apply (Hkey "STRUCT" "INT" n);
      [reflexivity|reflexivity|discriminate|discriminate
      |reflexivity|reflexivity|reflexivity|reflexivity].
  - apply (Hval "int" " decimal(10)" n);
      [reflexivity|reflexivity|discriminate|discriminate
      |reflexivity|reflexivity|reflexivity| |reflexivity].
    exists "int32". reflexivity.
  - apply (Hraw "UNKNOWNTYPE" n); reflexivity.
  - apply (Hraw "DECIMAL(10,2)" n); reflexivity.
Defined.
